(** * Correlations for the underdamped Brownian motion spectral density

    A shallow embedding of [matsubara/correlation.py] and the properties
    of its exponent extractors, spectrum assembler, integrator front end
    and bi-exponential fitter.

    Numbers.  The Python code works on IEEE doubles and on numpy's
    complex128.  The formulas are embedded in exact arithmetic: a real
    is an [R] of the Standard Library and a complex number is a pair of
    reals, with numpy's promotion of a real operand written [RtoC].
    Where the code depends on the special values of IEEE arithmetic
    (an infinite inverse temperature, the bounds of the fit) they are
    modelled by the type [xreal] below.  Rounding is not modelled.

    Singular inputs.  In [R] a division by zero and the square root of
    a negative number are 0, where the code returns an infinity or a
    NaN, or raises.  The formulas below agree with the code where no
    divisor vanishes and the argument of the square root is not
    negative; the properties carry the hypotheses that keep their
    inputs there ([w0 > gamma/2], [beta <> 0], [w <> 0], a non-zero
    minimum of the data). *)

From Stdlib Require Import Reals Lra List ZArith Lia String FunctionalExtensionality.
Import ListNotations.

Open Scope R_scope.

(** ** Complex numbers (numpy's complex128, exact) *)

Record C : Type := mkC { Re : R; Im : R }.

Declare Scope C_scope.
Delimit Scope C_scope with C.
Bind Scope C_scope with C.

Definition RtoC (x : R) : C := mkC x 0.
Definition Ci : C := mkC 0 1.

Definition Cadd (z w : C) : C := mkC (Re z + Re w) (Im z + Im w).
Definition Copp (z : C) : C := mkC (- Re z) (- Im z).
Definition Csub (z w : C) : C := mkC (Re z - Re w) (Im z - Im w).
Definition Cmul (z w : C) : C :=
  mkC (Re z * Re w - Im z * Im w) (Re z * Im w + Im z * Re w).
Definition Cnorm2 (z : C) : R := Re z * Re z + Im z * Im z.
Definition Cdiv (z w : C) : C :=
  mkC ((Re z * Re w + Im z * Im w) / Cnorm2 w)
      ((Im z * Re w - Re z * Im w) / Cnorm2 w).

(** [np.conjugate] *)
Definition Cconj (z : C) : C := mkC (Re z) (- Im z).

(** [z ** n] for a literal exponent *)
Fixpoint Cpow (z : C) (n : nat) : C :=
  match n with
  | O => RtoC 1
  | S k => Cmul z (Cpow z k)
  end.

(** [np.exp] on a complex argument *)
Definition Cexp (z : C) : C :=
  mkC (exp (Re z) * cos (Im z)) (exp (Re z) * sin (Im z)).

(** [np.tanh] on a complex argument *)
Definition Ctanh (z : C) : C :=
  Cdiv (Csub (Cexp z) (Cexp (Copp z))) (Cadd (Cexp z) (Cexp (Copp z))).

Infix "+" := Cadd : C_scope.
Infix "-" := Csub : C_scope.
Infix "*" := Cmul : C_scope.
Infix "/" := Cdiv : C_scope.
Notation "- z" := (Copp z) : C_scope.
Notation "z ^ n" := (Cpow z n) : C_scope.

Coercion RtoC : R >-> C.

(** [np.sqrt] on a real argument.  numpy returns NaN below zero, the
    model is used for non-negative arguments only. *)
Definition np_sqrt (x : R) : R := sqrt x.

(** ** Inverse temperature

    [beta] is a positive double or [np.inf] (zero temperature). *)

Inductive invtemp : Type :=
| Finite (b : R)
| PosInf.

(** ** [coth] *)

Definition coth (x : C) : C := (RtoC 1 / Ctanh x)%C.

(** ** [nonmatsubara_exponents] *)

Definition nonmatsubara_exponents
    (coup_strength cav_broad cav_freq : R) (beta : invtemp)
  : list C * list C :=
  let w0 := cav_freq in
  let lam := coup_strength in
  let gamma := cav_broad in
  let omega := np_sqrt (w0 ^ 2 - (gamma / 2) ^ 2) in
  let a := (RtoC omega + Ci * RtoC gamma / RtoC 2)%C in
  let aa := Cconj a in
  let coeff := lam ^ 2 / (4 * omega) in
  let vk := [ (Ci * a)%C ; (- Ci * aa)%C ] in
  let ck :=
    match beta with
    | PosInf => [ RtoC 0 ; RtoC 2 ]
    | Finite b =>
        [ (coth (RtoC b * (a / RtoC 2)) - RtoC 1)%C ;
          (coth (RtoC b * (aa / RtoC 2)) + RtoC 1)%C ]
    end in
  (map (Cmul (RtoC coeff)) ck, vk).

(** ** Python results

    An operation of the code either returns a value or raises. *)

Inductive exn : Type := IndexError | TypeError | ValueError.

Inductive result (A : Type) : Type :=
| Ok (a : A)
| Raise (e : exn).
Arguments Ok {A} a.
Arguments Raise {A} e.

Definition bind {A B : Type} (r : result A) (k : A -> result B) : result B :=
  match r with
  | Ok a => k a
  | Raise e => Raise e
  end.

Notation "x <- r ;; k" := (bind r (fun x => k))
  (at level 61, r at next level, right associativity).

(** [l[i]] *)
Definition getitem {A : Type} (l : list A) (i : nat) : result A :=
  match nth_error l i with
  | Some x => Ok x
  | None => Raise IndexError
  end.

(** [range(lo, hi)] *)
Definition py_range (lo hi : Z) : list Z :=
  map (fun k => (lo + Z.of_nat k)%Z) (seq 0 (Z.to_nat (hi - lo))).

(** ** [sum_of_exponentials] *)

(** [np.multiply(c, np.exp(v*tlist))] *)
Definition exp_term (c v : C) (tlist : list R) : list C :=
  map (fun t => (c * Cexp (v * RtoC t))%C) tlist.

(** [y += z] on arrays of one shape *)
Definition array_add (y z : list C) : list C :=
  map (fun p => (fst p + snd p)%C) (combine y z).

Definition sum_of_exponentials (ck vk : list C) (tlist : list R)
  : result (list C) :=
  c0 <- getitem ck 0 ;;
  v0 <- getitem vk 0 ;;
  fold_left
    (fun (acc : result (list C)) (p : nat) =>
       y <- acc ;;
       c <- getitem ck p ;;
       v <- getitem vk p ;;
       Ok (array_add y (exp_term c v tlist)))
    (seq 1 (List.length ck - 1))
    (Ok (exp_term c0 v0 tlist)).

(** ** IEEE special values *)

Inductive xreal : Type :=
| Fin (r : R)
| PInf
| NInf
| NaN.

Definition xinf (positive : bool) : xreal := if positive then PInf else NInf.

(** a finite factor times an infinity of the given sign *)
Definition finite_times_inf (r : R) (positive : bool) : xreal :=
  if Rlt_dec 0 r then xinf positive
  else if Rlt_dec r 0 then xinf (negb positive)
  else NaN.

Definition xmul (x y : xreal) : xreal :=
  match x, y with
  | NaN, _ | _, NaN => NaN
  | Fin a, Fin b => Fin (a * b)
  | Fin a, PInf | PInf, Fin a => finite_times_inf a true
  | Fin a, NInf | NInf, Fin a => finite_times_inf a false
  | PInf, PInf | NInf, NInf => PInf
  | PInf, NInf | NInf, PInf => NInf
  end.

(** numpy's division of doubles: a division by zero gives an infinity
    or NaN, with a warning.  The sign of a zero is not modelled, a zero
    divisor counts as [+0.0]. *)
Definition xdiv (x y : xreal) : xreal :=
  match x, y with
  | NaN, _ | _, NaN => NaN
  | Fin a, Fin b =>
      if Req_EM_T b 0 then finite_times_inf a true else Fin (a / b)
  | Fin _, PInf | Fin _, NInf => Fin 0
  | PInf, Fin b => if Rlt_dec b 0 then NInf else PInf
  | NInf, Fin b => if Rlt_dec b 0 then PInf else NInf
  | PInf, PInf | PInf, NInf | NInf, PInf | NInf, NInf => NaN
  end.

(** [np.tanh] on a double *)
Definition xtanh (x : xreal) : xreal :=
  match x with
  | Fin r => Fin (tanh r)
  | PInf => Fin 1
  | NInf => Fin (-1)
  | NaN => NaN
  end.

Definition xreal_of_invtemp (beta : invtemp) : xreal :=
  match beta with
  | Finite b => Fin b
  | PosInf => PInf
  end.

Definition xle (x y : xreal) : Prop :=
  match x, y with
  | NaN, _ | _, NaN => False
  | NInf, _ | _, PInf => True
  | Fin a, Fin b => a <= b
  | _, _ => False
  end.

(** ** [biexp_fit] *)

(** [np.min]; raises on an empty array *)
Definition np_min (l : list R) : result R :=
  match l with
  | [] => Raise ValueError
  | x :: rest => Ok (fold_left Rmin rest x)
  end.

Definition bounds_t : Type := (list xreal * list xreal)%type.

Definition default_ck_guess : list R := [0.1; 0.5].
Definition default_vk_guess : list R := [-0.5; -0.1].
Definition default_bounds : bounds_t :=
  ([Fin 0; NInf; Fin 0; NInf], [PInf; Fin 0; PInf; Fin 0]).
Definition default_method : string := "trf".
Definition default_loss : string := "cauchy".

(** The residual handed to the solver,
    [lambda x, t, y: np.power(x[0]*np.exp(x[1]*t) + x[2]*np.exp(x[3]*t) - y, 2)] *)
Definition biexp_residual (x t y : list R) : list R :=
  map (fun p =>
         (nth 0 x 0 * exp (nth 1 x 0 * fst p)
          + nth 2 x 0 * exp (nth 3 x 0 * fst p) - snd p) ^ 2)
      (combine t y).

Definition biexp_x0 : list R := [0.5; -1; 0.5; -1].

Section Fitter.

(** [scipy.optimize.least_squares(fun, x0, bounds=, loss=, args=(t, y)).x] *)
Variable least_squares :
  (list R -> list R -> list R -> list R) ->
  list R -> bounds_t -> string -> list R -> list R -> list R.

Definition biexp_fit (tlist ydata ck_guess vk_guess : list R)
    (bounds : bounds_t) (method loss : string)
  : result (list R * list R) :=
  mats_min <- np_min ydata ;;
  let data := map (fun y => y / mats_min) ydata in
  let fun_ := biexp_residual in
  let x0 := biexp_x0 in
  let params_x := least_squares fun_ x0 bounds loss tlist data in
  match params_x with
  | [c1; v1; c2; v2] =>
      let ck := map (Rmult mats_min) [c1; c2] in
      let vk := [v1; v2] in
      Ok (ck, vk)
  | _ => Raise ValueError
  end.

End Fitter.

(** ** [underdamped_brownian] *)

Definition underdamped_brownian (w coup_strength cav_broad cav_freq : R) : C :=
  let w0 := cav_freq in
  let lam := coup_strength in
  let gamma := cav_broad in
  let omega := np_sqrt (w0 ^ 2 - (gamma / 2) ^ 2) in
  let a := (RtoC omega + Ci * RtoC gamma / RtoC 2)%C in
  let aa := Cconj a in
  let prefactor := lam ^ 2 * gamma in
  let spectral_density :=
    (RtoC prefactor
     * (RtoC w / ((RtoC w - a) * (RtoC w + a) * (RtoC w - aa) * (RtoC w + aa))))%C in
  spectral_density.

(** ** [bath_correlation] *)

(** The values [spectral_density] can be bound to: a function
    [J(w, *params)] with real values, or an object that is not
    callable. *)
Inductive pyobj : Type :=
| PyFunction (J : R -> list R -> R)
| PyFloat (r : R)
| PyList (l : list R)
| PyNone.

Definition callable (o : pyobj) : bool :=
  match o with
  | PyFunction _ => true
  | _ => false
  end.

(** An entry of the returned complex array: a finite complex number, or
    one with an infinite or NaN component. *)
Inductive cvalue : Type :=
| CFin (z : C)
| CNonFinite.

(** [(r + 1j*i)/np.pi] *)
Definition corr_entry (r i : xreal) : cvalue :=
  match r, i with
  | Fin x, Fin y => CFin ((RtoC x + Ci * RtoC y) / RtoC PI)%C
  | _, _ => CNonFinite
  end.

(** The two kernels integrated for each time. *)
Inductive kernel : Type := IntegrandR | IntegrandI.

(** A call of the integrator: kernel, bounds, time. *)
Record quad_call : Type :=
  mkCall { qc_kernel : kernel; qc_lo : R; qc_hi : R; qc_t : R }.

Section Integrator.

(** [scipy.integrate.quad(f, lo, hi)[0]] *)
Variable quad : (R -> xreal) -> R -> R -> xreal.

(** [J] has real values, on which [np.real] is the identity. *)
Definition integrandR (J : R -> list R -> R) (params : list R)
    (beta : invtemp) (w t : R) : xreal :=
  let coth := fun x => xdiv (Fin 1) (xtanh x) in
  xmul (xmul (Fin (J w params))
             (coth (xmul (xreal_of_invtemp beta) (Fin (w / 2)))))
       (Fin (cos (w * t))).

Definition integrandI (J : R -> list R -> R) (params : list R)
    (w t : R) : xreal :=
  xmul (Fin (- J w params)) (Fin (sin (w * t))).

(** The result and the integrator calls made, in order. *)
Definition bath_correlation (spectral_density : pyobj)
    (tlist params : list R) (beta : invtemp) (w_cut : R)
  : result (list cvalue) * list quad_call :=
  match spectral_density with
  | PyFunction J =>
      let w_start := 0 in
      let '(corrR, corrI, calls) :=
        fold_left
          (fun (st : list xreal * list xreal * list quad_call) (i : R) =>
             let '(cR, cI, log) := st in
             let r := quad (fun w => integrandR J params beta w i) w_start w_cut in
             let log := log ++ [mkCall IntegrandR w_start w_cut i] in
             let im := quad (fun w => integrandI J params w i) w_start w_cut in
             let log := log ++ [mkCall IntegrandI w_start w_cut i] in
             (cR ++ [r], cI ++ [im], log))
          tlist ([], [], []) in
      (Ok (map (fun p => corr_entry (fst p) (snd p)) (combine corrR corrI)),
       calls)
  | _ => (Raise TypeError, [])
  end.

End Integrator.

(** ** [matsubara_exponents] *)

Definition matsubara_exponents
    (coup_strength cav_broad cav_freq beta : R) (N_exp : Z)
  : list C * list R :=
  let lam := coup_strength in
  let gamma := cav_broad in
  let w0 := cav_freq in
  let omega := np_sqrt (w0 ^ 2 - (gamma / 2) ^ 2) in
  let a := (RtoC omega + Ci * RtoC gamma / RtoC 2)%C in
  let aa := Cconj a in
  let coeff := (-4 * gamma * lam ^ 2 / PI) * ((PI / beta) ^ 2) in
  let vk := map (fun n => -2 * PI * IZR n / beta) (py_range 1 N_exp) in
  let ck :=
    map (fun n =>
           (RtoC (IZR n)
            / ((a ^ 2 + RtoC ((2 * PI * IZR n / beta) ^ 2))
               * (aa ^ 2 + RtoC ((2 * PI * IZR n / beta) ^ 2))))%C)
        (py_range 1 N_exp) in
  (map (Cmul (RtoC coeff)) ck, vk).

(** ** The spectrum *)

Definition _S (w coup_strength cav_broad cav_freq beta : R) : C :=
  let lam := coup_strength in
  let gamma := cav_broad in
  let w0 := cav_freq in
  let omega := np_sqrt (w0 ^ 2 - (gamma / 2) ^ 2) in
  let a := (RtoC omega + Ci * RtoC gamma / RtoC 2)%C in
  let aa := Cconj a in
  let prefactor := (RtoC (- (lam ^ 2) * gamma) / (a ^ 2 - aa ^ 2))%C in
  let t1 := (coth (RtoC beta * (a / RtoC 2))
             * (a / (a ^ 2 - RtoC (w ^ 2))))%C in
  let t2 := (coth (RtoC beta * (aa / RtoC 2))
             * (aa / (aa ^ 2 - RtoC (w ^ 2))))%C in
  (prefactor * (t1 - t2))%C.

Definition _A (w coup_strength cav_broad cav_freq beta : R) : C :=
  let lam := coup_strength in
  let gamma := cav_broad in
  let w0 := cav_freq in
  let omega := np_sqrt (w0 ^ 2 - (gamma / 2) ^ 2) in
  let a := (RtoC omega + Ci * RtoC gamma / RtoC 2)%C in
  let aa := Cconj a in
  let prefactor := lam ^ 2 * gamma in
  let t1 := (RtoC w / ((a ^ 2 - RtoC (w ^ 2)) * (aa ^ 2 - RtoC (w ^ 2))))%C in
  (RtoC prefactor * t1)%C.

Definition spectrum_matsubara (w coup_strength cav_broad cav_freq beta : R) : C :=
  (- _S w coup_strength cav_broad cav_freq beta
   + _A w coup_strength cav_broad cav_freq beta * coth (RtoC (beta * w / 2)))%C.

Definition spectrum_non_matsubara (w coup_strength cav_broad cav_freq beta : R) : C :=
  (_S w coup_strength cav_broad cav_freq beta
   + _A w coup_strength cav_broad cav_freq beta)%C.

Definition spectrum (w coup_strength cav_broad cav_freq beta : R) : C :=
  (spectrum_matsubara w coup_strength cav_broad cav_freq beta
   + spectrum_non_matsubara w coup_strength cav_broad cav_freq beta)%C.

(** ** Reference quantities

    The mathematical objects the properties below compare the code
    with. *)

(** The pole pair [a = omega + i gamma/2], [aa = conj a]. *)
Definition pole_omega (gamma w0 : R) : R := sqrt (w0 ^ 2 - (gamma / 2) ^ 2).
Definition pole_a (gamma w0 : R) : C := mkC (pole_omega gamma w0) (gamma / 2).
Definition pole_aa (gamma w0 : R) : C := Cconj (pole_a gamma w0).

(** The sum of a list of complex numbers. *)
Definition Csum (l : list C) : C := fold_right Cadd (RtoC 0) l.

(** [sum_i ck[i] * exp(vk[i] * t)] *)
Definition exp_sum_at (ck vk : list C) (t : R) : C :=
  Csum (map (fun p => (fst p * Cexp (snd p * RtoC t))%C) (combine ck vk)).

(** The Matsubara frequency [nu_n = 2 pi n / beta]. *)
Definition matsubara_frequency (beta : R) (n : Z) : R := 2 * PI * IZR n / beta.

(** A parameter vector within the box [lb <= x <= ub]. *)
Definition within_bounds (b : bounds_t) (x : list R) : Prop :=
  Forall2 xle (fst b) (map Fin x) /\ Forall2 xle (map Fin x) (snd b).

(** An integrator that samples its integrand inside the interval only,
    as the Gauss-Kronrod rules of QUADPACK do. *)
Definition interior_rule (quad : (R -> xreal) -> R -> R -> xreal) : Prop :=
  forall (f g : R -> xreal) (lo hi : R),
    lo < hi ->
    (forall w, lo < w < hi -> f w = g w) -> quad f lo hi = quad g lo hi.

(** The one-node rule at the midpoint, the smallest such integrator. *)
Definition midpoint_quad (f : R -> xreal) (lo hi : R) : xreal :=
  xmul (Fin (hi - lo)) (f ((lo + hi) / 2)).

(** The Ohmic spectral density of the docstring,
    [lambda w, eta: eta*w]. *)
Definition ohmic_sd (w : R) (params : list R) : R := nth 0 params 0 * w.

(** The correlation at zero temperature: the thermal factor
    [coth(beta w/2)] replaced by 1. *)
Definition zero_temperature_correlation
    (quad : (R -> xreal) -> R -> R -> xreal)
    (J : R -> list R -> R) (tlist params : list R) (w_cut : R)
  : list cvalue :=
  map (fun t =>
         corr_entry
           (quad (fun w => Fin (J w params * cos (w * t))) 0 w_cut)
           (quad (fun w => Fin (- J w params * sin (w * t))) 0 w_cut))
      tlist.

(** A result with an infinite or NaN entry. *)
Definition has_nonfinite (corr : list cvalue) : Prop := In CNonFinite corr.

(** ** [_matsubara_zero_integrand] and [matsubara_zero_analytical] *)

(** The integrand of the zero-temperature correction at time [t],
    [lambda x: np.real(prefactor*((x*np.exp(-x*t))/((a**2 + x**2)*(aa**2 + x**2))))] *)
Definition matsubara_zero_kernel (t coup_strength cav_broad cav_freq x : R) : R :=
  let lam := coup_strength in
  let gamma := cav_broad in
  let w0 := cav_freq in
  let omega := np_sqrt (w0 ^ 2 - (gamma / 2) ^ 2) in
  let a := (RtoC omega + Ci * RtoC gamma / RtoC 2)%C in
  let aa := Cconj a in
  let prefactor := - (lam ^ 2 * gamma) / PI in
  Re (RtoC prefactor
      * (RtoC (x * exp (- x * t))
         / ((a ^ 2 + RtoC (x ^ 2)) * (aa ^ 2 + RtoC (x ^ 2)))))%C.

Section ZeroTemperature.

(** [scipy.integrate.quad(f, lo, np.inf)[0]] *)
Variable quad_inf : (R -> R) -> R -> R.

Definition _matsubara_zero_integrand (t coup_strength cav_broad cav_freq : R) : R :=
  quad_inf (matsubara_zero_kernel t coup_strength cav_broad cav_freq) 0.

Definition matsubara_zero_analytical
    (coup_strength cav_broad cav_freq : R) (tlist : list R) : list R :=
  let lam := coup_strength in
  let gamma := cav_broad in
  let w0 := cav_freq in
  map (fun t => _matsubara_zero_integrand t coup_strength gamma w0) tlist.

End ZeroTemperature.

(** * Properties *)

(** ** Complex arithmetic *)

Lemma C_eq (z w : C) : Re z = Re w -> Im z = Im w -> z = w.
Proof. destruct z, w; simpl; intros -> ->; reflexivity. Qed.

Ltac csimp :=
  unfold Cpow, Cadd, Csub, Cmul, Cdiv, Copp, Cconj, Cnorm2, RtoC, Ci; simpl.
Ltac cring := apply C_eq; csimp; unfold Rdiv; ring.
Ltac cfield := apply C_eq; csimp; field; try lra.

Lemma pole_a_source (omega gamma : R) :
  (RtoC omega + Ci * RtoC gamma / RtoC 2)%C = mkC omega (gamma / 2).
Proof. cfield. Qed.

Lemma Cmul_div_2 (b : R) (z : C) :
  (RtoC b * (z / RtoC 2))%C = (RtoC b * z / RtoC 2)%C.
Proof. cfield. Qed.

Lemma Cadd_assoc (x y z : C) : (x + (y + z))%C = (x + y + z)%C.
Proof. cring. Qed.

Lemma Cadd_0_r (z : C) : (z + RtoC 0)%C = z.
Proof. destruct z; cring. Qed.

Lemma Cmul_1_r (z : C) : (z * RtoC 1)%C = z.
Proof. destruct z; cring. Qed.

Lemma Cmul_div_assoc (c z w : C) : (c * (z / w))%C = (c * z / w)%C.
Proof. cring. Qed.

Lemma Cexp_0 : Cexp (RtoC 0) = RtoC 1.
Proof.
  unfold Cexp, RtoC; simpl. rewrite exp_0, cos_0, sin_0.
  apply C_eq; simpl; ring.
Qed.

(** On a real argument the complex [tanh] is the real one, so [coth]
    covers both uses of the code. *)
Lemma Ctanh_real (x : R) : Ctanh (RtoC x) = RtoC (tanh x).
Proof.
  unfold Ctanh, Cexp, Copp, RtoC; cbn [Re Im].
  rewrite Ropp_0, cos_0, sin_0.
  pose proof (exp_pos x) as Hp. pose proof (exp_pos (- x)) as Hn.
  unfold tanh, sinh, cosh.
  apply C_eq; csimp; field; lra.
Qed.

(** ** The non-Matsubara exponents *)

(** C1: for a finite inverse temperature [b > 0], [gamma >= 0] and
    [w0 > gamma/2] (so that [omega > 0] and [coeff] is a finite
    number), [nonmatsubara_exponents] returns
    [ck = coeff*[coth(b*a/2) - 1, coth(b*aa/2) + 1]] and
    [vk = [i*a, -i*aa]], with [omega = sqrt(w0^2 - (gamma/2)^2)],
    [a = omega + i*gamma/2], [aa = conj a] and
    [coeff = lam^2/(4*omega)]. *)
Theorem nonmatsubara_exponents_finite (lam gamma w0 b : R) :
  0 < b -> 0 <= gamma -> gamma / 2 < w0 ->
  let omega := pole_omega gamma w0 in
  let a := pole_a gamma w0 in
  let aa := pole_aa gamma w0 in
  let coeff := lam ^ 2 / (4 * omega) in
  nonmatsubara_exponents lam gamma w0 (Finite b) =
    ([ (RtoC coeff * (coth (RtoC b * a / RtoC 2) - RtoC 1))%C ;
       (RtoC coeff * (coth (RtoC b * aa / RtoC 2) + RtoC 1))%C ],
     [ (Ci * a)%C ; (- Ci * aa)%C ]).
Proof.
  intros _ _ _ omega a aa coeff.
  unfold nonmatsubara_exponents, np_sqrt.
  fold (pole_omega gamma w0). rewrite pole_a_source.
  fold (pole_a gamma w0). fold (pole_aa gamma w0).
  simpl map. rewrite !Cmul_div_2. reflexivity.
Qed.

Lemma nonmatsubara_exponents_finite_witness :
  0 < 1 /\ 0 <= 1 /\ 1 / 2 < 1 /\
  nonmatsubara_exponents 1 1 1 (Finite 1) =
    ([ (RtoC (1 ^ 2 / (4 * pole_omega 1 1))
        * (coth (RtoC 1 * pole_a 1 1 / RtoC 2) - RtoC 1))%C ;
       (RtoC (1 ^ 2 / (4 * pole_omega 1 1))
        * (coth (RtoC 1 * pole_aa 1 1 / RtoC 2) + RtoC 1))%C ],
     [ (Ci * pole_a 1 1)%C ; (- Ci * pole_aa 1 1)%C ]).
Proof.
  split; [lra | split; [lra | split; [lra |]]].
  apply (nonmatsubara_exponents_finite 1 1 1 1); lra.
Defined.

(** C3: at [beta = np.inf] with [gamma >= 0] and [w0 > gamma/2] (so
    that [omega > 0] and [coeff] is a finite number) the explicit
    branch is taken: no [coth] is evaluated, [ck] is exactly [coeff*[0, 2]] with
    [coeff = lam^2/(4*omega)], and [vk = [i*a, -i*aa]] is the same as
    for every finite inverse temperature. *)
Theorem nonmatsubara_exponents_zero_temperature (lam gamma w0 : R) :
  0 <= gamma -> gamma / 2 < w0 ->
  let omega := pole_omega gamma w0 in
  let a := pole_a gamma w0 in
  let aa := pole_aa gamma w0 in
  let coeff := lam ^ 2 / (4 * omega) in
  nonmatsubara_exponents lam gamma w0 PosInf =
    ([ (RtoC coeff * RtoC 0)%C ; (RtoC coeff * RtoC 2)%C ],
     [ (Ci * a)%C ; (- Ci * aa)%C ])
  /\ fst (nonmatsubara_exponents lam gamma w0 PosInf) =
       [ RtoC 0 ; RtoC (2 * coeff) ]
  /\ forall b : R,
       snd (nonmatsubara_exponents lam gamma w0 PosInf) =
       snd (nonmatsubara_exponents lam gamma w0 (Finite b)).
Proof.
  intros _ _ omega a aa coeff.
  unfold nonmatsubara_exponents, np_sqrt.
  fold (pole_omega gamma w0). rewrite pole_a_source.
  fold (pole_a gamma w0). fold (pole_aa gamma w0). fold omega. fold coeff.
  simpl. repeat split.
  f_equal; [cring | f_equal; cring].
Qed.

Lemma nonmatsubara_exponents_zero_temperature_witness :
  0 <= 1 /\ 1 / 2 < 1 /\
  fst (nonmatsubara_exponents 1 1 1 PosInf) =
    [ RtoC 0 ; RtoC (2 * (1 ^ 2 / (4 * pole_omega 1 1))) ].
Proof.
  split; [lra | split; [lra |]].
  apply (nonmatsubara_exponents_zero_temperature 1 1 1); lra.
Defined.

(** For [gamma >= 0] and [w0 >= gamma/2] the two rates are
    [-gamma/2 +- i*omega], whatever the inverse temperature is. *)
Lemma nonmatsubara_rates (lam gamma w0 : R) (beta : invtemp) :
  0 <= gamma -> gamma / 2 <= w0 ->
  snd (nonmatsubara_exponents lam gamma w0 beta) =
    [ mkC (- (gamma / 2)) (pole_omega gamma w0) ;
      mkC (- (gamma / 2)) (- pole_omega gamma w0) ].
Proof.
  intros _ _.
  unfold nonmatsubara_exponents, np_sqrt.
  fold (pole_omega gamma w0). rewrite pole_a_source.
  simpl. f_equal; [cring | f_equal; cring].
Qed.

Lemma nonmatsubara_rates_witness :
  snd (nonmatsubara_exponents 1 1 1 (Finite 1)) =
    [ mkC (- (1 / 2)) (pole_omega 1 1) ;
      mkC (- (1 / 2)) (- pole_omega 1 1) ].
Proof. apply (nonmatsubara_rates 1 1 1 (Finite 1)); lra. Defined.

(** ** The Matsubara exponents *)

Example py_range_1_4 : py_range 1 4 = [1; 2; 3]%Z.
Proof. reflexivity. Qed.

Example py_range_1_1 : py_range 1 1 = [].
Proof. reflexivity. Qed.

Example py_range_1_0 : py_range 1 0 = [].
Proof. reflexivity. Qed.

Lemma py_range_length (lo hi : Z) :
  List.length (py_range lo hi) = Z.to_nat (hi - lo).
Proof. unfold py_range. rewrite length_map, length_seq. reflexivity. Qed.

Lemma py_range_nth (lo hi : Z) (k : nat) :
  (k < Z.to_nat (hi - lo))%nat ->
  nth_error (py_range lo hi) k = Some (lo + Z.of_nat k)%Z.
Proof.
  intros Hk. unfold py_range.
  rewrite nth_error_map, nth_error_seq.
  destruct (Nat.ltb_spec k (Z.to_nat (hi - lo))) as [_ | Hge]; [| lia].
  reflexivity.
Qed.

(** C2: for [N_exp >= 1], a finite [beta > 0], [gamma >= 0] and
    [w0 > gamma/2] (so that [omega] is a positive real),
    [matsubara_exponents] returns two arrays of length exactly [N_exp - 1]; the [n]-th term,
    [n = 1 .. N_exp - 1], has [vk = -nu_n] with [nu_n = 2*pi*n/beta] and
    [ck = coeff*n/((a^2 + nu_n^2)*(aa^2 + nu_n^2))] with
    [coeff = (-4*gamma*lam^2/pi)*(pi/beta)^2]. *)
Theorem matsubara_exponents_terms
    (lam gamma w0 beta : R) (N_exp : Z) :
  (1 <= N_exp)%Z -> 0 < beta -> 0 <= gamma -> gamma / 2 < w0 ->
  let a := pole_a gamma w0 in
  let aa := pole_aa gamma w0 in
  let coeff := (-4 * gamma * lam ^ 2 / PI) * (PI / beta) ^ 2 in
  let ck := fst (matsubara_exponents lam gamma w0 beta N_exp) in
  let vk := snd (matsubara_exponents lam gamma w0 beta N_exp) in
  List.length ck = Z.to_nat (N_exp - 1)
  /\ List.length vk = Z.to_nat (N_exp - 1)
  /\ forall n : Z, (1 <= n <= N_exp - 1)%Z ->
       let nu := matsubara_frequency beta n in
       nth_error vk (Z.to_nat (n - 1)) = Some (- nu)
       /\ nth_error ck (Z.to_nat (n - 1)) =
            Some (RtoC coeff * RtoC (IZR n)
                  / ((a ^ 2 + RtoC (nu ^ 2)) * (aa ^ 2 + RtoC (nu ^ 2))))%C.
Proof.
  intros HN _ _ _ a aa coeff ck vk.
  subst ck vk. unfold matsubara_exponents, np_sqrt.
  fold (pole_omega gamma w0). rewrite pole_a_source.
  fold (pole_a gamma w0). fold (pole_aa gamma w0). fold a. fold aa. fold coeff.
  cbn [fst snd].
  split; [| split].
  - rewrite !length_map. apply py_range_length.
  - rewrite length_map. apply py_range_length.
  - intros n Hn.
    set (nu := matsubara_frequency beta n).
    assert (Hk : (Z.to_nat (n - 1) < Z.to_nat (N_exp - 1))%nat) by lia.
    assert (Hv : (1 + Z.of_nat (Z.to_nat (n - 1)))%Z = n) by lia.
    split.
    + rewrite nth_error_map, (py_range_nth 1 N_exp _ Hk), Hv. simpl.
      f_equal. unfold nu, matsubara_frequency, Rdiv. ring.
    + rewrite !nth_error_map, (py_range_nth 1 N_exp _ Hk), Hv. simpl.
      f_equal. fold (matsubara_frequency beta n). fold nu.
      apply Cmul_div_assoc.
Qed.

Lemma matsubara_exponents_terms_witness :
  (1 <= 3)%Z /\ 0 < 1 /\ 0 <= 1 /\ 1 / 2 < 1 /\
  List.length (fst (matsubara_exponents 1 1 1 1 3)) = 2%nat /\
  List.length (snd (matsubara_exponents 1 1 1 1 3)) = 2%nat.
Proof.
  split; [lia | split; [lra | split; [lra | split; [lra |]]]].
  destruct (matsubara_exponents_terms 1 1 1 1 3) as (Hc & Hv & _);
    [lia | lra | lra | lra |].
  split; [exact Hc | exact Hv].
Defined.

(** ** The spectral density *)

Section Poles.

Variables w omega gamma : R.

Let a : C := mkC omega (gamma / 2).
Let aa : C := Cconj a.

(** The four-pole denominator is real:
    [(w-a)(w+a)(w-aa)(w+aa) = |w^2 - a^2|^2]. *)
Lemma four_pole_denominator_im :
  Im ((RtoC w - a) * (RtoC w + a) * (RtoC w - aa) * (RtoC w + aa))%C = 0.
Proof. subst a aa. csimp. ring. Qed.

Lemma four_pole_denominator_re :
  Re ((RtoC w - a) * (RtoC w + a) * (RtoC w - aa) * (RtoC w + aa))%C =
  (w ^ 2 - (omega ^ 2 + (gamma / 2) ^ 2)) ^ 2 + gamma ^ 2 * w ^ 2
  + (gamma ^ 2 * (omega ^ 2 + (gamma / 2) ^ 2 - (omega ^ 2 + (gamma / 2) ^ 2))).
Proof. subst a aa. csimp. field. Qed.

End Poles.

Lemma Cdiv_real_im (x : R) (d : C) : Im d = 0 -> Im (RtoC x / d)%C = 0.
Proof. intros Hd. csimp. rewrite Hd. unfold Rdiv. ring. Qed.

Lemma Cmul_real_im (p : R) (z : C) : Im z = 0 -> Im (RtoC p * z)%C = 0.
Proof. intros Hz. csimp. rewrite Hz. ring. Qed.

(** C5: for every real [w] and every [lam > 0], [gamma > 0],
    [w0 >= gamma/2], the value of [underdamped_brownian] is real: its
    imaginary part is zero (in exact arithmetic). *)
Theorem underdamped_brownian_real (w lam gamma w0 : R) :
  0 < lam -> 0 < gamma -> gamma / 2 <= w0 ->
  Im (underdamped_brownian w lam gamma w0) = 0.
Proof.
  intros _ _ _. unfold underdamped_brownian, np_sqrt.
  rewrite pole_a_source.
  apply Cmul_real_im, Cdiv_real_im, four_pole_denominator_im.
Qed.

Lemma underdamped_brownian_real_witness :
  0 < 1 /\ 0 < 1 /\ 1 / 2 <= 1 /\ Im (underdamped_brownian 2 1 1 1) = 0.
Proof.
  repeat (split; [lra |]).
  apply (underdamped_brownian_real 2 1 1 1); lra.
Defined.

(** The real value is the Lorentzian
    [lam^2 gamma w / ((w^2 - w0^2)^2 + gamma^2 w^2)]. *)
Lemma underdamped_brownian_closed_form (w lam gamma w0 : R) :
  0 < gamma -> gamma / 2 <= w0 ->
  underdamped_brownian w lam gamma w0 =
  RtoC (lam ^ 2 * gamma * w / ((w ^ 2 - w0 ^ 2) ^ 2 + gamma ^ 2 * w ^ 2)).
Proof.
  intros Hg Hw. unfold underdamped_brownian, np_sqrt.
  rewrite pole_a_source.
  set (omega := sqrt (w0 ^ 2 - (gamma / 2) ^ 2)).
  assert (Hom : omega ^ 2 + (gamma / 2) ^ 2 = w0 ^ 2).
  { replace (omega ^ 2) with (omega * omega) by ring.
    unfold omega. rewrite sqrt_sqrt; [ring | nra]. }
  pose proof (four_pole_denominator_im w omega gamma) as Him.
  pose proof (four_pole_denominator_re w omega gamma) as Hre.
  rewrite Hom in Hre.
  set (d := ((RtoC w - mkC omega (gamma / 2)) * (RtoC w + mkC omega (gamma / 2))
             * (RtoC w - Cconj (mkC omega (gamma / 2)))
             * (RtoC w + Cconj (mkC omega (gamma / 2))))%C) in *.
  set (D := (w ^ 2 - w0 ^ 2) ^ 2 + gamma ^ 2 * w ^ 2).
  assert (HreD : Re d = D) by (rewrite Hre; unfold D; ring).
  destruct d as [dr di]; simpl in Him, HreD; subst dr di.
  apply C_eq; csimp.
  - destruct (Req_dec D 0) as [HD | HD].
    + rewrite HD. unfold Rdiv. rewrite !Rmult_0_l, Rplus_0_l, Rinv_0. ring.
    + field. exact HD.
  - unfold Rdiv. ring.
Qed.

(** ** The spectrum *)

(** C4: for every real [w <> 0], finite [beta > 0], [gamma > 0] and
    [w0 > gamma/2] (away from the poles of [coth] and of the
    prefactor of [_S]), [spectrum] is
    [spectrum_matsubara + spectrum_non_matsubara], with
    [spectrum_matsubara = -S + A*coth(beta*w/2)] and
    [spectrum_non_matsubara = S + A]; the [S] contributions cancel and
    the total is [A*(1 + coth(beta*w/2))]. *)
Theorem spectrum_split (w lam gamma w0 beta : R) :
  0 < beta -> 0 < gamma -> gamma / 2 < w0 -> w <> 0 ->
  let S := _S w lam gamma w0 beta in
  let A := _A w lam gamma w0 beta in
  let c := coth (RtoC (beta * w / 2)) in
  spectrum w lam gamma w0 beta =
    (spectrum_matsubara w lam gamma w0 beta
     + spectrum_non_matsubara w lam gamma w0 beta)%C
  /\ spectrum_matsubara w lam gamma w0 beta = (- S + A * c)%C
  /\ spectrum_non_matsubara w lam gamma w0 beta = (S + A)%C
  /\ spectrum w lam gamma w0 beta = (A * (RtoC 1 + c))%C.
Proof.
  intros _ _ _ _ S A c.
  repeat split.
  unfold spectrum, spectrum_matsubara, spectrum_non_matsubara.
  fold S. fold A. fold c.
  generalize S A c. intros [sr si] [ar ai] [cr ci_]. cring.
Qed.

Lemma spectrum_split_witness :
  0 < 1 /\ 1 / 2 < 1 /\ 2 <> 0 /\
  spectrum 2 1 1 1 1 =
    (_A 2 1 1 1 1 * (RtoC 1 + coth (RtoC (1 * 2 / 2))))%C.
Proof.
  split; [lra | split; [lra | split; [lra |]]].
  apply (spectrum_split 2 1 1 1 1); lra.
Defined.

(** ** The sum of exponentials *)

Lemma array_add_map (f g : R -> C) (tlist : list R) :
  array_add (map f tlist) (map g tlist) = map (fun t => (f t + g t)%C) tlist.
Proof.
  unfold array_add. induction tlist as [| t rest IH]; simpl.
  - reflexivity.
  - rewrite IH. reflexivity.
Qed.

Lemma fold_left_Cadd (l : list C) (z : C) :
  fold_left Cadd l z = (z + Csum l)%C.
Proof.
  revert z. induction l as [| x l IH]; intros z; simpl.
  - symmetry. apply Cadd_0_r.
  - rewrite IH. symmetry. apply Cadd_assoc.
Qed.

Lemma skipn_nth_error {A : Type} (l : list A) (k : nat) (x : A) :
  nth_error l k = Some x -> skipn k l = x :: skipn (S k) l.
Proof.
  revert k. induction l as [| y l IH]; intros [| k] H; simpl in *;
    try discriminate.
  - injection H as ->. reflexivity.
  - apply IH. exact H.
Qed.

Section Loop.

Variables ck vk : list C.
Variable tlist : list R.

Let term (t : R) (p : C * C) : C := (fst p * Cexp (snd p * RtoC t))%C.

Let step (acc : result (list C)) (p : nat) : result (list C) :=
  y <- acc ;;
  c <- getitem ck p ;;
  v <- getitem vk p ;;
  Ok (array_add y (exp_term c v tlist)).

(** Invariant of the loop: after the terms [k .. k+n-1] the
    accumulator holds, at each time, the start value plus these
    terms. *)
Lemma loop_invariant (n : nat) :
  forall (k : nat) (f : R -> C),
    (k + n <= List.length ck)%nat ->
    (k + n <= List.length vk)%nat ->
    fold_left step (seq k n) (Ok (map f tlist)) =
    Ok (map (fun t =>
               fold_left Cadd
                 (map (term t) (firstn n (skipn k (combine ck vk))))
                 (f t))
            tlist).
Proof.
  induction n as [| n IH]; intros k f Hc Hv.
  - reflexivity.
  - destruct (nth_error ck k) as [c |] eqn:Ec;
      [| apply nth_error_None in Ec; lia].
    destruct (nth_error vk k) as [v |] eqn:Ev;
      [| apply nth_error_None in Ev; lia].
    assert (Ecv : nth_error (combine ck vk) k = Some (c, v)).
    { clear - Ec Ev. revert vk k Ec Ev.
      induction ck as [| c0 l IHl]; intros [| v0 l'] [| k] Ec Ev;
        simpl in *; try discriminate.
      - injection Ec as ->. injection Ev as ->. reflexivity.
      - apply IHl; assumption. }
    rewrite (skipn_nth_error _ _ _ Ecv).
    cbn [seq fold_left firstn map].
    unfold step at 2. cbn [bind]. unfold getitem. rewrite Ec, Ev. cbn [bind].
    unfold exp_term. rewrite array_add_map.
    rewrite (IH (S k)) by lia. reflexivity.
Qed.

End Loop.

Lemma combine_length_eq {A B : Type} (l : list A) (l' : list B) :
  List.length l = List.length l' ->
  List.length (combine l l') = List.length l.
Proof. intros H. rewrite length_combine, <- H. apply Nat.min_id. Qed.

Lemma sum_of_exponentials_value (ck vk : list C) (tlist : list R) :
  List.length ck = List.length vk -> (1 <= List.length ck)%nat ->
  sum_of_exponentials ck vk tlist = Ok (map (exp_sum_at ck vk) tlist).
Proof.
  intros Hlen Hpos.
  destruct ck as [| c0 ck']; [simpl in Hpos; lia |].
  destruct vk as [| v0 vk']; [discriminate |].
  simpl in Hlen. injection Hlen as Hlen.
  unfold sum_of_exponentials. cbn [getitem nth_error bind].
  unfold exp_term at 2.
  replace (List.length (c0 :: ck') - 1)%nat with (List.length ck')
    by (simpl; lia).
  rewrite loop_invariant by (simpl; lia).
  f_equal. apply map_ext. intros t.
  cbn [skipn combine]. rewrite firstn_all2
    by (rewrite combine_length_eq by exact Hlen; lia).
  rewrite fold_left_Cadd. reflexivity.
Qed.

Lemma Csum_exp_at_0 (ck vk : list C) :
  List.length ck = List.length vk -> exp_sum_at ck vk 0 = Csum ck.
Proof.
  unfold exp_sum_at. revert vk.
  induction ck as [| c ck IH]; intros [| v vk] H; simpl in *;
    try discriminate; [reflexivity |].
  rewrite IH by (injection H as H; exact H).
  f_equal.
  replace (v * RtoC 0)%C with (RtoC 0) by cring.
  rewrite Cexp_0. apply Cmul_1_r.
Qed.

(** C9: for arrays [ck], [vk] of one length [N >= 1] and a time array
    of length [M], [sum_of_exponentials] returns an array of length [M]
    whose entry at time [t] is [sum_{i<N} ck[i]*exp(vk[i]*t)]; at
    [tlist = [0]] it returns [sum(ck)]. *)
Theorem sum_of_exponentials_correct (ck vk : list C) (tlist : list R) :
  List.length ck = List.length vk -> (1 <= List.length ck)%nat ->
  (exists y : list C,
      sum_of_exponentials ck vk tlist = Ok y
      /\ List.length y = List.length tlist
      /\ forall (j : nat) (t : R),
           nth_error tlist j = Some t ->
           nth_error y j = Some (exp_sum_at ck vk t))
  /\ sum_of_exponentials ck vk [0] = Ok [Csum ck].
Proof.
  intros Hlen Hpos. split.
  - exists (map (exp_sum_at ck vk) tlist). split; [| split].
    + apply sum_of_exponentials_value; assumption.
    + apply length_map.
    + intros j t Hj. rewrite nth_error_map, Hj. reflexivity.
  - rewrite sum_of_exponentials_value by assumption.
    simpl. rewrite Csum_exp_at_0 by assumption. reflexivity.
Qed.

Lemma sum_of_exponentials_correct_witness :
  sum_of_exponentials [RtoC 1; Ci] [RtoC (-1); Ci] [0] =
    Ok [Csum [RtoC 1; Ci]].
Proof.
  apply (sum_of_exponentials_correct [RtoC 1; Ci] [RtoC (-1); Ci] [0]).
  - reflexivity.
  - simpl; lia.
Defined.

(** Without a first term the function raises. *)
Lemma sum_of_exponentials_empty (vk : list C) (tlist : list R) :
  sum_of_exponentials [] vk tlist = Raise IndexError.
Proof. reflexivity. Qed.

(** ** The bi-exponential fit *)

Lemma fold_left_Rmin_le (l : list R) (x : R) :
  fold_left Rmin l x <= x /\ Forall (fun y => fold_left Rmin l x <= y) l.
Proof.
  revert x. induction l as [| y l IH]; intros x; simpl.
  - split; [lra | constructor].
  - destruct (IH (Rmin x y)) as [H1 H2].
    pose proof (Rmin_l x y). pose proof (Rmin_r x y).
    split; [lra |]. constructor; [lra | exact H2].
Qed.

Lemma fold_left_Rmin_in (l : list R) (x : R) :
  In (fold_left Rmin l x) (x :: l).
Proof.
  revert x. induction l as [| y l IH]; intros x; simpl.
  - left; reflexivity.
  - destruct (IH (Rmin x y)) as [H | H].
    + unfold Rmin in H at 1. destruct (Rle_dec x y); auto.
    + right; right; exact H.
Qed.

(** [np.min] returns the least entry of the array. *)
Lemma np_min_least (ydata : list R) (m : R) :
  np_min ydata = Ok m -> In m ydata /\ Forall (fun y => m <= y) ydata.
Proof.
  destruct ydata as [| x l]; simpl; [discriminate |].
  intros H. injection H as <-.
  destruct (fold_left_Rmin_le l x) as [H1 H2].
  split; [apply fold_left_Rmin_in | constructor; assumption].
Qed.

(** The default box: amplitudes at least 0, rates at most 0. *)
Lemma default_bounds_signs (c1 v1 c2 v2 : R) :
  within_bounds default_bounds [c1; v1; c2; v2] <->
  0 <= c1 /\ 0 <= c2 /\ v1 <= 0 /\ v2 <= 0.
Proof.
  unfold within_bounds, default_bounds; simpl. split.
  - intros [Hlo Hhi].
    inversion Hlo as [| ? ? ? ? Hc1 Hlo1]; subst.
    inversion Hlo1 as [| ? ? ? ? _ Hlo2]; subst.
    inversion Hlo2 as [| ? ? ? ? Hc2 _]; subst.
    inversion Hhi as [| ? ? ? ? _ Hhi1]; subst.
    inversion Hhi1 as [| ? ? ? ? Hv1 Hhi2]; subst.
    inversion Hhi2 as [| ? ? ? ? _ Hhi3]; subst.
    inversion Hhi3 as [| ? ? ? ? Hv2 _]; subst.
    simpl in *. tauto.
  - intros (Hc1 & Hc2 & Hv1 & Hv2).
    split; repeat apply Forall2_cons; try apply Forall2_nil;
      simpl; solve [assumption | exact I].
Qed.

Section FitterProperties.

Variable least_squares :
  (list R -> list R -> list R -> list R) ->
  list R -> bounds_t -> string -> list R -> list R -> list R.

(** C6: when the minimum of [ydata] is not zero, [biexp_fit] divides
    [ydata] by its minimum before it calls the solver; the returned [ck] is that minimum times the two
    fitted amplitudes and the returned [vk] is the two fitted rates,
    unscaled; the default bounds constrain the amplitudes to be
    non-negative and the rates to be non-positive. *)
Theorem biexp_fit_rescales
    (tlist ydata ck_guess vk_guess : list R)
    (bounds : bounds_t) (method loss : string)
    (m c1 v1 c2 v2 : R) :
  np_min ydata = Ok m -> m <> 0 ->
  least_squares biexp_residual [0.5; -1; 0.5; -1] bounds loss tlist
                (map (fun y => y / m) ydata) = [c1; v1; c2; v2] ->
  biexp_fit least_squares tlist ydata ck_guess vk_guess bounds method loss =
    Ok ([m * c1; m * c2], [v1; v2])
  /\ (In m ydata /\ Forall (fun y => m <= y) ydata)
  /\ (bounds = default_bounds ->
      within_bounds bounds [c1; v1; c2; v2] ->
      0 <= c1 /\ 0 <= c2 /\ v1 <= 0 /\ v2 <= 0).
Proof.
  intros Hmin _ Hfit. split; [| split].
  - unfold biexp_fit. rewrite Hmin. cbn [bind].
    unfold biexp_x0. rewrite Hfit. reflexivity.
  - apply np_min_least. exact Hmin.
  - intros -> Hb. apply default_bounds_signs. exact Hb.
Qed.

End FitterProperties.

(** A solver that returns its start vector. *)
Lemma biexp_fit_rescales_witness :
  biexp_fit (fun _ x0 _ _ _ _ => x0) [0; 1] [-2; -1]
            default_ck_guess default_vk_guess
            default_bounds default_method default_loss =
    Ok ([-2 * 0.5; -2 * 0.5], [-1; -1]).
Proof.
  apply (biexp_fit_rescales (fun _ x0 _ _ _ _ => x0) [0; 1] [-2; -1]
           default_ck_guess default_vk_guess
           default_bounds default_method default_loss (-2) 0.5 (-1) 0.5 (-1)).
  - simpl. f_equal. unfold Rmin. destruct (Rle_dec (-2) (-1)); lra.
  - lra.
  - reflexivity.
Defined.

(** C10: the result of [biexp_fit] does not depend on [ck_guess] and
    [vk_guess]: two calls that differ in the guesses only return the
    same [(ck, vk)], and the solver is only ever started from
    [x0 = [0.5, -1, 0.5, -1]], so two solvers that agree from that
    start vector give the same fit. *)
Theorem biexp_fit_ignores_guess
    (ls ls' : (list R -> list R -> list R -> list R) ->
              list R -> bounds_t -> string -> list R -> list R -> list R)
    (tlist ydata ck_guess vk_guess ck_guess' vk_guess' : list R)
    (bounds : bounds_t) (method loss : string) :
  biexp_fit ls tlist ydata ck_guess vk_guess bounds method loss =
  biexp_fit ls tlist ydata ck_guess' vk_guess' bounds method loss
  /\ ((forall f b l t d,
          ls f [0.5; -1; 0.5; -1] b l t d = ls' f [0.5; -1; 0.5; -1] b l t d) ->
      biexp_fit ls tlist ydata ck_guess vk_guess bounds method loss =
      biexp_fit ls' tlist ydata ck_guess' vk_guess' bounds method loss).
Proof.
  split; [reflexivity |].
  intros Hagree. unfold biexp_fit, biexp_x0.
  destruct (np_min ydata) as [m | e]; cbn [bind]; [| reflexivity].
  rewrite Hagree. reflexivity.
Qed.

Lemma biexp_fit_ignores_guess_witness :
  biexp_fit (fun _ x0 _ _ _ _ => x0) [0; 1] [-2; -1]
            default_ck_guess default_vk_guess
            default_bounds default_method default_loss =
  biexp_fit (fun _ _ _ _ _ _ => [0.5; -1; 0.5; -1]) [0; 1] [-2; -1]
            [7; 7] [-9; -9]
            default_bounds default_method default_loss.
Proof.
  apply (biexp_fit_ignores_guess
           (fun _ x0 _ _ _ _ => x0) (fun _ _ _ _ _ _ => [0.5; -1; 0.5; -1])).
  intros f b l t d. reflexivity.
Defined.

(** ** The correlation integrator *)

Lemma combine_map_same {A B D : Type} (f : A -> B) (g : A -> D) (l : list A) :
  combine (map f l) (map g l) = map (fun x => (f x, g x)) l.
Proof.
  induction l as [| x l IH]; simpl; [reflexivity | rewrite IH; reflexivity].
Qed.

Section IntegratorProperties.

Variable quad : (R -> xreal) -> R -> R -> xreal.
Variable J : R -> list R -> R.
Variables (params : list R) (beta : invtemp) (w_cut : R).

Let realPart (t : R) : xreal :=
  quad (fun w => integrandR J params beta w t) 0 w_cut.
Let imagPart (t : R) : xreal :=
  quad (fun w => integrandI J params w t) 0 w_cut.
Let callsAt (t : R) : list quad_call :=
  [mkCall IntegrandR 0 w_cut t; mkCall IntegrandI 0 w_cut t].

(** The loop over [tlist] extends the two lists by one integral each
    per time, and makes two integrator calls per time. *)
Lemma bath_loop (tlist : list R) :
  forall (cR cI : list xreal) (log : list quad_call),
    fold_left
      (fun (st : list xreal * list xreal * list quad_call) (i : R) =>
         let '(cR, cI, log) := st in
         let r := quad (fun w => integrandR J params beta w i) 0 w_cut in
         let log := log ++ [mkCall IntegrandR 0 w_cut i] in
         let im := quad (fun w => integrandI J params w i) 0 w_cut in
         let log := log ++ [mkCall IntegrandI 0 w_cut i] in
         (cR ++ [r], cI ++ [im], log))
      tlist (cR, cI, log) =
    (cR ++ map realPart tlist, cI ++ map imagPart tlist,
     log ++ flat_map callsAt tlist).
Proof.
  induction tlist as [| t rest IH]; intros cR cI log; simpl.
  - rewrite !app_nil_r. reflexivity.
  - rewrite IH. rewrite <- !app_assoc. reflexivity.
Qed.

Lemma bath_correlation_callable (tlist : list R) :
  bath_correlation quad (PyFunction J) tlist params beta w_cut =
  (Ok (map (fun t => corr_entry (realPart t) (imagPart t)) tlist),
   flat_map callsAt tlist).
Proof.
  unfold bath_correlation. rewrite bath_loop. cbn [app].
  rewrite combine_map_same, map_map. reflexivity.
Qed.

Lemma callsAt_length (tlist : list R) :
  List.length (flat_map callsAt tlist) = (2 * List.length tlist)%nat.
Proof.
  induction tlist as [| t rest IH]; simpl; [reflexivity | rewrite IH; lia].
Qed.

End IntegratorProperties.

(** C8: for a [spectral_density] that is not callable,
    [bath_correlation] raises [TypeError] before any integration is
    performed (no integrator call is made, no value is returned); for a
    callable one no such error is raised: it returns one entry per time
    after two integrations per time. *)
Theorem bath_correlation_type_check
    (quad : (R -> xreal) -> R -> R -> xreal)
    (spectral_density : pyobj) (tlist params : list R)
    (beta : invtemp) (w_cut : R) :
  let r := bath_correlation quad spectral_density tlist params beta w_cut in
  if callable spectral_density
  then (exists corr : list cvalue,
           fst r = Ok corr /\ List.length corr = List.length tlist)
       /\ List.length (snd r) = (2 * List.length tlist)%nat
  else r = (Raise TypeError, []).
Proof.
  intros r. subst r.
  destruct spectral_density as [J | x | l |]; cbn [callable];
    try reflexivity.
  rewrite bath_correlation_callable. cbn [fst snd].
  split.
  - eexists. split; [reflexivity | apply length_map].
  - apply callsAt_length.
Qed.

(** *** An infinite inverse temperature *)

(** At [beta = np.inf] and a positive frequency the thermal factor is
    [1/tanh(inf) = 1]: the integrand is the zero-temperature one. *)
Lemma integrandR_infinite_beta (J : R -> list R -> R) (params : list R) (w t : R) :
  0 < w -> integrandR J params PosInf w t = Fin (J w params * cos (w * t)).
Proof.
  intros Hw. unfold integrandR. cbn [xreal_of_invtemp xmul].
  unfold finite_times_inf.
  destruct (Rlt_dec 0 (w / 2)) as [_ | H]; [| exfalso; lra].
  cbn [xinf xtanh xdiv].
  destruct (Req_EM_T 1 0) as [H | _]; [exfalso; lra |].
  cbn [xmul]. f_equal. field.
Qed.

(** At the lower end [w = 0] the product [inf * 0] is NaN. *)
Lemma integrandR_infinite_beta_at_0 (J : R -> list R -> R) (params : list R) (t : R) :
  integrandR J params PosInf 0 t = NaN.
Proof.
  unfold integrandR. cbn [xreal_of_invtemp xmul]. unfold finite_times_inf.
  destruct (Rlt_dec 0 (0 / 2)) as [H | _]; [exfalso; lra |].
  destruct (Rlt_dec (0 / 2) 0) as [H | _]; [exfalso; lra |].
  reflexivity.
Qed.

(** The lower end is singular at every finite temperature as well, for
    a spectral density that vanishes at 0: [coth(0) = inf] and
    [0 * inf] is NaN.  An integrator has to stay inside the interval
    whatever [beta] is. *)
Lemma integrandR_finite_beta_at_0 (J : R -> list R -> R) (params : list R) (b t : R) :
  J 0 params = 0 -> integrandR J params (Finite b) 0 t = NaN.
Proof.
  intros HJ. unfold integrandR. cbn [xreal_of_invtemp xmul xtanh].
  replace (b * (0 / 2)) with 0 by field.
  assert (Ht : tanh 0 = 0).
  { unfold tanh. rewrite sinh_0. unfold Rdiv. ring. }
  rewrite Ht. cbn [xdiv].
  destruct (Req_EM_T 0 0) as [_ | H]; [| exfalso; apply H; reflexivity].
  unfold finite_times_inf at 1.
  destruct (Rlt_dec 0 1) as [_ | H]; [| exfalso; lra].
  cbn [xinf xmul]. rewrite HJ. unfold finite_times_inf.
  destruct (Rlt_dec 0 0) as [H | _]; [exfalso; lra |].
  reflexivity.
Qed.

Lemma midpoint_quad_interior : interior_rule midpoint_quad.
Proof.
  intros f g lo hi Hlt Hfg. unfold midpoint_quad.
  rewrite Hfg by lra. reflexivity.
Qed.

Lemma bath_correlation_zero_temperature
    (quad : (R -> xreal) -> R -> R -> xreal)
    (J : R -> list R -> R) (tlist params : list R) (w_cut : R) :
  interior_rule quad -> 0 < w_cut ->
  fst (bath_correlation quad (PyFunction J) tlist params PosInf w_cut) =
    Ok (zero_temperature_correlation quad J tlist params w_cut).
Proof.
  intros Hquad Hcut.
  rewrite bath_correlation_callable. cbn [fst].
  unfold zero_temperature_correlation. f_equal.
  apply map_ext. intros t. f_equal.
  apply Hquad; [exact Hcut |].
  intros w [Hw _]. apply integrandR_infinite_beta. exact Hw.
Qed.

(** C7, as the code behaves: [bath_correlation] has no branch for
    [beta = np.inf]; passed directly, the thermal factor evaluates to
    exactly 1 at every frequency [w > 0], so with an integrator that
    samples inside [(0, w_cut)] the function returns the
    zero-temperature correlation (the [coth] term replaced by 1).  A
    NaN arises at the end point [w = 0] only. *)
Theorem bath_correlation_infinite_beta
    (quad : (R -> xreal) -> R -> R -> xreal)
    (J : R -> list R -> R) (tlist params : list R) (w_cut : R) :
  interior_rule quad -> 0 < w_cut ->
  fst (bath_correlation quad (PyFunction J) tlist params PosInf w_cut) =
    Ok (zero_temperature_correlation quad J tlist params w_cut)
  /\ (forall w t, 0 < w ->
        integrandR J params PosInf w t = Fin (J w params * cos (w * t)))
  /\ (forall t, integrandR J params PosInf 0 t = NaN).
Proof.
  intros Hquad Hcut. split; [| split].
  - apply bath_correlation_zero_temperature; assumption.
  - intros w t Hw. apply integrandR_infinite_beta. exact Hw.
  - intros t. apply integrandR_infinite_beta_at_0.
Qed.

Lemma bath_correlation_infinite_beta_witness :
  interior_rule midpoint_quad /\ 0 < 2 /\
  fst (bath_correlation midpoint_quad (PyFunction ohmic_sd) [0; 1] [1] PosInf 2) =
    Ok (zero_temperature_correlation midpoint_quad ohmic_sd [0; 1] [1] 2).
Proof.
  split; [exact midpoint_quad_interior | split; [lra |]].
  apply (bath_correlation_infinite_beta midpoint_quad ohmic_sd [0; 1] [1] 2).
  - exact midpoint_quad_interior.
  - lra.
Defined.

(** C7, as stated, fails: with the Ohmic density [J(w) = w], the time
    [t = 0], the cutoff 2 and the midpoint rule, [beta = np.inf] gives
    the finite value [2/pi], which is the zero-temperature
    correlation [(1/pi) * int_0^2 w dw]. *)
Lemma bath_correlation_infinite_beta_is_finite :
  fst (bath_correlation midpoint_quad (PyFunction ohmic_sd) [0] [1] PosInf 2) =
    Ok [CFin (RtoC (2 / PI))]
  /\ ~ has_nonfinite [CFin (RtoC (2 / PI))]
  /\ zero_temperature_correlation midpoint_quad ohmic_sd [0] [1] 2 =
       [CFin (RtoC (2 / PI))].
Proof.
  assert (Hz : zero_temperature_correlation midpoint_quad ohmic_sd [0] [1] 2 =
               [CFin (RtoC (2 / PI))]).
  { unfold zero_temperature_correlation, midpoint_quad, ohmic_sd.
    cbn [map nth xmul corr_entry].
    rewrite Rmult_0_r, cos_0, sin_0.
    f_equal. f_equal. apply C_eq; csimp; field; apply PI_neq0. }
  split; [| split].
  - rewrite bath_correlation_zero_temperature
      by (exact midpoint_quad_interior || lra).
    rewrite Hz. reflexivity.
  - unfold has_nonfinite. simpl. intros [H | []]. discriminate H.
  - exact Hz.
Qed.

(** * Further properties *)

(** ** [sum_of_exponentials]: lengths and errors *)

Lemma Cadd_0_l (z : C) : (RtoC 0 + z)%C = z.
Proof. destruct z; cring. Qed.

Lemma Csum_app (l1 l2 : list C) : Csum (l1 ++ l2) = (Csum l1 + Csum l2)%C.
Proof.
  unfold Csum. induction l1 as [| x l1 IH]; simpl.
  - symmetry. apply Cadd_0_l.
  - rewrite IH. apply Cadd_assoc.
Qed.

Lemma loop_raise (ck vk : list C) (tlist : list R) (e : exn) (l : list nat) :
  fold_left
    (fun (acc : result (list C)) (p : nat) =>
       y <- acc ;;
       c <- getitem ck p ;;
       v <- getitem vk p ;;
       Ok (array_add y (exp_term c v tlist)))
    l (Raise e) = Raise e.
Proof. induction l as [| p l IH]; simpl; [reflexivity | exact IH]. Qed.

(** Rates beyond the last coefficient are never read: with
    [1 <= len(ck) <= len(vk)] the function returns the sum over the
    first [len(ck)] pairs. *)
Theorem sum_of_exponentials_surplus_rates (ck vk : list C) (tlist : list R) :
  (1 <= List.length ck)%nat -> (List.length ck <= List.length vk)%nat ->
  sum_of_exponentials ck vk tlist = Ok (map (exp_sum_at ck vk) tlist)
  /\ forall t : R,
       exp_sum_at ck vk t = exp_sum_at ck (firstn (List.length ck) vk) t.
Proof.
  intros Hpos Hlen. split.
  - destruct ck as [| c0 ck']; [simpl in Hpos; lia |].
    destruct vk as [| v0 vk']; [simpl in Hlen; lia |].
    simpl in Hlen.
    unfold sum_of_exponentials. cbn [getitem nth_error bind].
    unfold exp_term at 2.
    replace (List.length (c0 :: ck') - 1)%nat with (List.length ck')
      by (simpl; lia).
    rewrite loop_invariant by (simpl; lia).
    f_equal. apply map_ext. intros t.
    cbn [skipn combine]. rewrite firstn_all2
      by (rewrite length_combine; lia).
    rewrite fold_left_Cadd. reflexivity.
  - intros t. unfold exp_sum_at. do 2 f_equal.
    clear. revert vk. induction ck as [| c ck IH]; intros [| v vk]; simpl;
      try reflexivity.
    rewrite <- IH. reflexivity.
Qed.

Lemma sum_of_exponentials_surplus_rates_witness :
  sum_of_exponentials [RtoC 1] [RtoC (-1); Ci; Ci] [0; 1] =
    Ok (map (exp_sum_at [RtoC 1] [RtoC (-1); Ci; Ci]) [0; 1]).
Proof.
  apply (sum_of_exponentials_surplus_rates [RtoC 1] [RtoC (-1); Ci; Ci] [0; 1]);
    simpl; lia.
Defined.

(** With no coefficient, or with fewer rates than coefficients, the
    function raises [IndexError], whatever the times. *)
Theorem sum_of_exponentials_index_error (ck vk : list C) (tlist : list R) :
  ck = [] \/ (List.length vk < List.length ck)%nat ->
  sum_of_exponentials ck vk tlist = Raise IndexError.
Proof.
  intros [-> | Hlt]; [reflexivity |].
  destruct ck as [| c0 ck']; [simpl in Hlt; lia |].
  destruct vk as [| v0 vk']; [reflexivity |].
  simpl in Hlt.
  unfold sum_of_exponentials. cbn [getitem nth_error bind].
  unfold exp_term at 2.
  replace (List.length (c0 :: ck') - 1)%nat
    with (List.length vk' + S (List.length ck' - S (List.length vk')))%nat
    by (simpl; lia).
  rewrite seq_app, fold_left_app.
  rewrite loop_invariant by (simpl; lia).
  cbn [seq fold_left bind].
  assert (Hv : nth_error (v0 :: vk') (1 + List.length vk') = None)
    by (apply nth_error_None; simpl; lia).
  assert (Hg : getitem (v0 :: vk') (1 + List.length vk') = Raise IndexError)
    by (unfold getitem; rewrite Hv; reflexivity).
  rewrite Hg.
  assert (Hc : exists c, getitem (c0 :: ck') (1 + List.length vk') = Ok c).
  { unfold getitem.
    destruct (nth_error (c0 :: ck') (1 + List.length vk')) as [c |] eqn:Ec;
      [exists c; reflexivity | apply nth_error_None in Ec; simpl in Ec; lia]. }
  destruct Hc as [c ->]. cbn [bind]. apply loop_raise.
Qed.

Lemma sum_of_exponentials_index_error_witness :
  sum_of_exponentials [RtoC 1; RtoC 2; RtoC 3] [Ci; Ci] [0; 1] = Raise IndexError.
Proof.
  apply (sum_of_exponentials_index_error [RtoC 1; RtoC 2; RtoC 3] [Ci; Ci] [0; 1]).
  right. simpl. lia.
Defined.

Lemma exp_sum_at_app (ck1 vk1 ck2 vk2 : list C) (t : R) :
  List.length ck1 = List.length vk1 ->
  exp_sum_at (ck1 ++ ck2) (vk1 ++ vk2) t =
  (exp_sum_at ck1 vk1 t + exp_sum_at ck2 vk2 t)%C.
Proof.
  intros Hlen. unfold exp_sum_at.
  replace (combine (ck1 ++ ck2) (vk1 ++ vk2))
    with (combine ck1 vk1 ++ combine ck2 vk2).
  - rewrite map_app. apply Csum_app.
  - revert vk1 Hlen. induction ck1 as [| c ck1 IH]; intros [| v vk1] Hlen;
      simpl in *; try discriminate; [reflexivity |].
    rewrite IH by lia. reflexivity.
Qed.

(** Two decompositions concatenated give the sum of the two signals:
    this is how the Matsubara and the non-Matsubara exponents are put
    together. *)
Theorem sum_of_exponentials_concat
    (ck1 vk1 ck2 vk2 : list C) (tlist : list R) :
  List.length ck1 = List.length vk1 -> (1 <= List.length ck1)%nat ->
  List.length ck2 = List.length vk2 -> (1 <= List.length ck2)%nat ->
  exists y1 y2 : list C,
    sum_of_exponentials ck1 vk1 tlist = Ok y1
    /\ sum_of_exponentials ck2 vk2 tlist = Ok y2
    /\ sum_of_exponentials (ck1 ++ ck2) (vk1 ++ vk2) tlist =
         Ok (array_add y1 y2).
Proof.
  intros H1 P1 H2 P2.
  exists (map (exp_sum_at ck1 vk1) tlist), (map (exp_sum_at ck2 vk2) tlist).
  split; [apply sum_of_exponentials_value; assumption |].
  split; [apply sum_of_exponentials_value; assumption |].
  rewrite sum_of_exponentials_value
    by (rewrite ?length_app; lia).
  rewrite array_add_map. f_equal. apply map_ext. intros t.
  apply exp_sum_at_app. exact H1.
Qed.

Lemma sum_of_exponentials_concat_witness :
  exists y1 y2 : list C,
    sum_of_exponentials [RtoC 1] [Ci] [0; 1] = Ok y1
    /\ sum_of_exponentials [RtoC 2] [RtoC (-1)] [0; 1] = Ok y2
    /\ sum_of_exponentials ([RtoC 1] ++ [RtoC 2]) ([Ci] ++ [RtoC (-1)]) [0; 1] =
         Ok (array_add y1 y2).
Proof.
  apply (sum_of_exponentials_concat [RtoC 1] [Ci] [RtoC 2] [RtoC (-1)] [0; 1]);
    simpl; lia.
Defined.

(** ** Conjugation *)

Lemma Cconj_RtoC (x : R) : Cconj (RtoC x) = RtoC x.
Proof. cring. Qed.

Lemma Cconj_add (z w : C) : Cconj (z + w) = (Cconj z + Cconj w)%C.
Proof. cring. Qed.

Lemma Cconj_sub (z w : C) : Cconj (z - w) = (Cconj z - Cconj w)%C.
Proof. cring. Qed.

Lemma Cconj_opp (z : C) : Cconj (- z) = (- Cconj z)%C.
Proof. cring. Qed.

Lemma Cconj_mul (z w : C) : Cconj (z * w) = (Cconj z * Cconj w)%C.
Proof. cring. Qed.

Lemma Cconj_div (z w : C) : Cconj (z / w) = (Cconj z / Cconj w)%C.
Proof.
  apply C_eq; csimp; unfold Rdiv;
    replace (- Im w * - Im w) with (Im w * Im w) by ring; ring.
Qed.

Lemma Cconj_pow2 (z : C) : Cconj (z ^ 2) = (Cconj z ^ 2)%C.
Proof. cring. Qed.

Lemma Cconj_exp (z : C) : Cexp (Cconj z) = Cconj (Cexp z).
Proof.
  unfold Cexp, Cconj; cbn [Re Im]. rewrite cos_neg, sin_neg.
  apply C_eq; simpl; ring.
Qed.

Lemma Cconj_tanh (z : C) : Ctanh (Cconj z) = Cconj (Ctanh z).
Proof.
  unfold Ctanh.
  rewrite Cconj_div, Cconj_sub, Cconj_add, <- !Cconj_exp, <- Cconj_opp.
  reflexivity.
Qed.

Lemma Cconj_coth (z : C) : coth (Cconj z) = Cconj (coth z).
Proof. unfold coth. rewrite Cconj_div, Cconj_tanh, Cconj_RtoC. reflexivity. Qed.

(** ** [coth] *)

Lemma Copp_involutive (z : C) : (- - z)%C = z.
Proof. destruct z; cring. Qed.

Lemma Cdiv_opp_l (z w : C) : (- z / w)%C = (- (z / w))%C.
Proof. cring. Qed.

Lemma Cdiv_opp_r (z w : C) : (z / - w)%C = (- (z / w))%C.
Proof.
  apply C_eq; csimp; unfold Rdiv;
    replace (- Re w * - Re w + - Im w * - Im w)
      with (Re w * Re w + Im w * Im w) by ring; ring.
Qed.

Lemma Ctanh_opp (z : C) : Ctanh (- z)%C = (- Ctanh z)%C.
Proof.
  unfold Ctanh. rewrite Copp_involutive, <- Cdiv_opp_l.
  f_equal; cring.
Qed.

(** [coth] is odd and commutes with conjugation. *)
Theorem coth_odd_conj (z : C) :
  coth (- z)%C = (- coth z)%C /\ coth (Cconj z) = Cconj (coth z).
Proof.
  split; [| apply Cconj_coth].
  unfold coth. rewrite Ctanh_opp. apply Cdiv_opp_r.
Qed.

Lemma tanh_bounds (x : R) : 0 < x -> 0 < tanh x < 1.
Proof.
  intros Hx.
  pose proof (exp_pos x) as Hp. pose proof (exp_pos (- x)) as Hn.
  assert (Hlt : exp (- x) < exp x) by (apply exp_increasing; lra).
  unfold tanh, sinh, cosh.
  replace ((exp x - exp (- x)) / 2 / ((exp x + exp (- x)) / 2))
    with ((exp x - exp (- x)) / (exp x + exp (- x))) by (field; lra).
  split.
  - apply Rdiv_lt_0_compat; lra.
  - apply Rmult_lt_reg_r with (exp x + exp (- x)); [lra |].
    unfold Rdiv. rewrite Rmult_assoc, Rinv_l by lra. lra.
Qed.

(** On a positive real argument [coth] is real and at least 1: the
    thermal factor [coth(beta*w/2)] never lowers the zero-temperature
    integrand at a positive frequency. *)
Theorem coth_positive_real (x : R) :
  0 < x ->
  coth (RtoC x) = RtoC (1 / tanh x) /\ 1 <= 1 / tanh x.
Proof.
  intros Hx. destruct (tanh_bounds x Hx) as [H0 H1]. split.
  - unfold coth. rewrite Ctanh_real. apply C_eq; csimp; field; lra.
  - apply Rmult_le_reg_r with (tanh x); [exact H0 |].
    unfold Rdiv. rewrite Rmult_assoc, Rinv_l by lra. lra.
Qed.

Lemma coth_positive_real_witness :
  0 < 1 /\ coth (RtoC 1) = RtoC (1 / tanh 1) /\ 1 <= 1 / tanh 1.
Proof.
  split; [lra |]. apply (coth_positive_real 1). lra.
Defined.

(** ** The spectral density and the spectrum *)

Lemma four_pole_factors (w : R) (a : C) :
  ((a ^ 2 - RtoC (w ^ 2)) * (Cconj a ^ 2 - RtoC (w ^ 2)))%C =
  ((RtoC w - a) * (RtoC w + a) * (RtoC w - Cconj a) * (RtoC w + Cconj a))%C.
Proof. destruct a as [x y]. cring. Qed.

Lemma _A_underdamped_brownian (w lam gamma w0 beta : R) :
  _A w lam gamma w0 beta = underdamped_brownian w lam gamma w0.
Proof.
  unfold _A, underdamped_brownian. rewrite four_pole_factors. reflexivity.
Qed.

(** For [gamma > 0], [w0 > gamma/2], [w <> 0] and [beta <> 0] the
    antisymmetric part [_A] is the spectral density itself, whatever
    [beta] is, and the full spectrum is
    [J(w) * (1 + coth(beta*w/2))]. *)
Theorem spectrum_from_spectral_density (w lam gamma w0 beta : R) :
  0 < gamma -> gamma / 2 < w0 -> w <> 0 -> beta <> 0 ->
  _A w lam gamma w0 beta = underdamped_brownian w lam gamma w0
  /\ spectrum w lam gamma w0 beta =
       (underdamped_brownian w lam gamma w0
        * (RtoC 1 + coth (RtoC (beta * w / 2))))%C.
Proof.
  intros _ _ _ _.
  split; [apply _A_underdamped_brownian |].
  unfold spectrum, spectrum_matsubara, spectrum_non_matsubara.
  rewrite _A_underdamped_brownian.
  generalize (_S w lam gamma w0 beta) (underdamped_brownian w lam gamma w0)
             (coth (RtoC (beta * w / 2))).
  intros [sr si] [jr ji] [cr ci_]. cring.
Qed.

Lemma spectrum_from_spectral_density_witness :
  spectrum 2 1 1 1 1 =
    (underdamped_brownian 2 1 1 1 * (RtoC 1 + coth (RtoC (1 * 2 / 2))))%C.
Proof. apply (spectrum_from_spectral_density 2 1 1 1 1); lra. Defined.

Lemma four_pole_even (w : R) (a : C) :
  ((RtoC (- w) - a) * (RtoC (- w) + a)
   * (RtoC (- w) - Cconj a) * (RtoC (- w) + Cconj a))%C =
  ((RtoC w - a) * (RtoC w + a) * (RtoC w - Cconj a) * (RtoC w + Cconj a))%C.
Proof. destruct a as [x y]. cring. Qed.

(** For [gamma > 0] and [w0 >= gamma/2] the spectral density is odd in
    the frequency and vanishes at 0. *)
Theorem underdamped_brownian_odd (w lam gamma w0 : R) :
  0 < gamma -> gamma / 2 <= w0 ->
  underdamped_brownian (- w) lam gamma w0 =
    (- underdamped_brownian w lam gamma w0)%C
  /\ underdamped_brownian 0 lam gamma w0 = RtoC 0.
Proof.
  intros _ _.
  unfold underdamped_brownian, np_sqrt. split.
  - rewrite four_pole_even.
    replace (RtoC (- w)) with (- RtoC w)%C by cring.
    rewrite Cdiv_opp_l.
    match goal with
    | |- (_ * - ?q)%C = _ => generalize q
    end.
    intros [x y]. cring.
  - match goal with
    | |- (_ * (_ / ?d))%C = _ => generalize d
    end.
    intros [x y]. cring.
Qed.

Lemma underdamped_brownian_odd_witness :
  underdamped_brownian (- 2) 1 1 1 = (- underdamped_brownian 2 1 1 1)%C
  /\ underdamped_brownian 0 1 1 1 = RtoC 0.
Proof. apply (underdamped_brownian_odd 2 1 1 1); lra. Defined.

(** For [lam > 0], [gamma > 0] and [w0 >= gamma/2] the spectral density
    is the Lorentzian
    [lam^2 gamma w / ((w^2 - w0^2)^2 + gamma^2 w^2)], positive at every
    positive frequency. *)
Theorem underdamped_brownian_lorentzian (w lam gamma w0 : R) :
  0 < lam -> 0 < gamma -> gamma / 2 <= w0 ->
  underdamped_brownian w lam gamma w0 =
    RtoC (lam ^ 2 * gamma * w / ((w ^ 2 - w0 ^ 2) ^ 2 + gamma ^ 2 * w ^ 2))
  /\ (0 < w -> 0 < Re (underdamped_brownian w lam gamma w0)).
Proof.
  intros Hl Hg Hw.
  rewrite underdamped_brownian_closed_form by assumption.
  split; [reflexivity |].
  intros Hpos. cbn [Re RtoC].
  assert (H1 : 0 < lam ^ 2) by nra.
  assert (H2 : 0 < lam ^ 2 * gamma) by (apply Rmult_lt_0_compat; assumption).
  assert (H3 : 0 < gamma ^ 2 * w ^ 2)
    by (apply Rmult_lt_0_compat; nra).
  assert (H4 : 0 <= (w ^ 2 - w0 ^ 2) ^ 2) by apply pow2_ge_0.
  apply Rdiv_lt_0_compat; [apply Rmult_lt_0_compat; assumption | lra].
Qed.

Lemma underdamped_brownian_lorentzian_witness :
  underdamped_brownian 2 1 1 1 =
    RtoC (1 ^ 2 * 1 * 2 / ((2 ^ 2 - 1 ^ 2) ^ 2 + 1 ^ 2 * 2 ^ 2)).
Proof.
  apply (underdamped_brownian_lorentzian 2 1 1 1); lra.
Defined.

Lemma Im_conjugate_difference (r : R) (z t : C) :
  Im (RtoC r / (z - Cconj z) * (t - Cconj t))%C = 0.
Proof. destruct z, t. csimp. unfold Rdiv. ring. Qed.

(** For [gamma > 0], [w0 > gamma/2] and [beta <> 0] the symmetric part
    [_S] is real and even in the frequency. *)
Theorem symmetric_part_real_even (w lam gamma w0 beta : R) :
  0 < gamma -> gamma / 2 < w0 -> beta <> 0 ->
  Im (_S w lam gamma w0 beta) = 0
  /\ _S (- w) lam gamma w0 beta = _S w lam gamma w0 beta.
Proof.
  intros _ _ _.
  split.
  - unfold _S, np_sqrt.
    set (a := (RtoC (sqrt (w0 ^ 2 - (gamma / 2) ^ 2))
               + Ci * RtoC gamma / RtoC 2)%C).
    set (t1 := (coth (RtoC beta * (a / RtoC 2))
                * (a / (a ^ 2 - RtoC (w ^ 2))))%C).
    replace (coth (RtoC beta * (Cconj a / RtoC 2))
             * (Cconj a / (Cconj a ^ 2 - RtoC (w ^ 2))))%C
      with (Cconj t1).
    + rewrite <- Cconj_pow2. apply Im_conjugate_difference.
    + unfold t1.
      rewrite Cconj_mul, <- Cconj_coth, Cconj_mul, !Cconj_div, Cconj_sub,
        Cconj_pow2, !Cconj_RtoC.
      reflexivity.
  - unfold _S. replace ((- w) ^ 2) with (w ^ 2) by ring. reflexivity.
Qed.

Lemma symmetric_part_real_even_witness :
  Im (_S 2 1 1 1 1) = 0 /\ _S (- 2) 1 1 1 1 = _S 2 1 1 1 1.
Proof. apply (symmetric_part_real_even 2 1 1 1 1); lra. Defined.

(** ** [matsubara_exponents]: edge cases and signs *)

Lemma py_range_empty (lo hi : Z) : (hi <= lo)%Z -> py_range lo hi = [].
Proof.
  intros H. unfold py_range.
  replace (Z.to_nat (hi - lo)) with 0%nat by lia. reflexivity.
Qed.

Lemma py_range_snoc (lo hi : Z) :
  (lo <= hi)%Z -> py_range lo (hi + 1) = py_range lo hi ++ [hi].
Proof.
  intros H. unfold py_range.
  replace (Z.to_nat (hi + 1 - lo)) with (Z.to_nat (hi - lo) + 1)%nat by lia.
  rewrite seq_app, map_app. simpl. do 2 f_equal. lia.
Qed.

Lemma py_range_in (lo hi n : Z) :
  In n (py_range lo hi) -> (lo <= n < hi)%Z.
Proof.
  unfold py_range. rewrite in_map_iff.
  intros (k & <- & Hk). apply in_seq in Hk. lia.
Qed.

(** With [N_exp <= 1] and [beta <> 0] no term is produced: both arrays
    are empty. *)
Theorem matsubara_exponents_empty (lam gamma w0 beta : R) (N_exp : Z) :
  (N_exp <= 1)%Z -> beta <> 0 ->
  matsubara_exponents lam gamma w0 beta N_exp = ([], []).
Proof.
  intros H _. unfold matsubara_exponents.
  rewrite (py_range_empty 1 N_exp H). reflexivity.
Qed.

Lemma matsubara_exponents_empty_witness :
  matsubara_exponents 1 1 1 1 0 = ([], []).
Proof. apply (matsubara_exponents_empty 1 1 1 1 0); [lia | lra]. Defined.

(** For [beta <> 0], [gamma >= 0] and [w0 > gamma/2], raising [N_exp]
    by one appends one term and leaves the earlier terms as they
    are. *)
Theorem matsubara_exponents_append (lam gamma w0 beta : R) (N_exp : Z) :
  (1 <= N_exp)%Z -> beta <> 0 -> 0 <= gamma -> gamma / 2 < w0 ->
  exists (c : C) (v : R),
    fst (matsubara_exponents lam gamma w0 beta (N_exp + 1)) =
      fst (matsubara_exponents lam gamma w0 beta N_exp) ++ [c]
    /\ snd (matsubara_exponents lam gamma w0 beta (N_exp + 1)) =
         snd (matsubara_exponents lam gamma w0 beta N_exp) ++ [v]
    /\ v = - matsubara_frequency beta N_exp.
Proof.
  intros H _ _ _. unfold matsubara_exponents. cbn [fst snd].
  rewrite (py_range_snoc 1 N_exp H), !map_app. cbn [map].
  eexists. eexists. split; [reflexivity |]. split; [reflexivity |].
  unfold matsubara_frequency, Rdiv. ring.
Qed.

Lemma matsubara_exponents_append_witness :
  exists (c : C) (v : R),
    fst (matsubara_exponents 1 1 1 1 (3 + 1)) =
      fst (matsubara_exponents 1 1 1 1 3) ++ [c]
    /\ snd (matsubara_exponents 1 1 1 1 (3 + 1)) =
         snd (matsubara_exponents 1 1 1 1 3) ++ [v]
    /\ v = - matsubara_frequency 1 3.
Proof.
  apply (matsubara_exponents_append 1 1 1 1 3); [lia | lra | lra | lra].
Defined.

Lemma Im_mul_conj (p : C) : Im (p * Cconj p)%C = 0.
Proof. destruct p. csimp. ring. Qed.

Lemma matsubara_denominator_conj (a : C) (r : R) :
  (Cconj a ^ 2 + RtoC r)%C = Cconj (a ^ 2 + RtoC r).
Proof. rewrite Cconj_add, Cconj_pow2, Cconj_RtoC. reflexivity. Qed.

(** For [beta > 0], [gamma >= 0] and [w0 > gamma/2] every Matsubara
    term is a real decaying exponential: the coefficients have no
    imaginary part and the rates are negative. *)
Theorem matsubara_exponents_real_decay
    (lam gamma w0 beta : R) (N_exp : Z) :
  0 < beta -> 0 <= gamma -> gamma / 2 < w0 ->
  Forall (fun c => Im c = 0) (fst (matsubara_exponents lam gamma w0 beta N_exp))
  /\ Forall (fun v => v < 0) (snd (matsubara_exponents lam gamma w0 beta N_exp)).
Proof.
  intros Hb _ _. unfold matsubara_exponents. cbn [fst snd]. split.
  - rewrite map_map. apply Forall_map, Forall_forall. intros n _.
    rewrite matsubara_denominator_conj.
    apply Cmul_real_im, Cdiv_real_im, Im_mul_conj.
  - apply Forall_map, Forall_forall. intros n Hn.
    apply py_range_in in Hn.
    assert (Hn1 : 1 <= IZR n) by (apply IZR_le; lia).
    pose proof PI_RGT_0 as Hpi.
    assert (Hpos : 0 < 2 * PI * IZR n / beta)
      by (apply Rdiv_lt_0_compat; nra).
    replace (-2 * PI * IZR n / beta) with (- (2 * PI * IZR n / beta))
      by (unfold Rdiv; ring).
    lra.
Qed.

Lemma matsubara_exponents_real_decay_witness :
  Forall (fun v => v < 0) (snd (matsubara_exponents 1 1 1 1 4)).
Proof. apply (matsubara_exponents_real_decay 1 1 1 1 4); lra. Defined.

Lemma Cdiv_real_mul_conj (x : R) (p : C) :
  (RtoC x / (p * Cconj p))%C = RtoC (x / Cnorm2 p).
Proof.
  destruct p as [a b]. unfold Cnorm2; cbn [Re Im].
  set (m := a * a + b * b).
  apply C_eq; csimp.
  - replace (a * a - b * - b) with m by (unfold m; ring).
    replace (a * - b + b * a) with 0 by ring.
    destruct (Req_dec m 0) as [Hm | Hm].
    + rewrite Hm. unfold Rdiv. rewrite Rinv_0. ring.
    + field. exact Hm.
  - unfold Rdiv. ring.
Qed.

Lemma Cmul_RtoC (x y : R) : (RtoC x * RtoC y)%C = RtoC (x * y).
Proof. cring. Qed.

Lemma Cnorm2_nonneg (p : C) : 0 <= Cnorm2 p.
Proof. unfold Cnorm2. nra. Qed.

Lemma Cnorm2_pos (p : C) : Im p <> 0 -> 0 < Cnorm2 p.
Proof. unfold Cnorm2. intros H. nra. Qed.

(** The squared modulus of [a^2 + x^2] for the pole [a]. *)
Lemma matsubara_denominator_norm (gamma w0 x : R) :
  0 < gamma -> gamma / 2 <= w0 ->
  Cnorm2 (mkC (sqrt (w0 ^ 2 - (gamma / 2) ^ 2)) (gamma / 2) ^ 2 + RtoC (x ^ 2))%C =
  (x ^ 2 + w0 ^ 2) ^ 2 - gamma ^ 2 * x ^ 2.
Proof.
  intros Hg Hw.
  set (omega := sqrt (w0 ^ 2 - (gamma / 2) ^ 2)).
  assert (Hom : omega * omega = w0 ^ 2 - (gamma / 2) ^ 2)
    by (unfold omega; apply sqrt_sqrt; nra).
  csimp.
  replace ((omega * (omega * 1 - gamma / 2 * 0)
            - gamma / 2 * (omega * 0 + gamma / 2 * 1) + x * (x * 1)))
    with (omega * omega - (gamma / 2) ^ 2 + x ^ 2) by ring.
  replace (omega * (omega * 0 + gamma / 2 * 1)
           + gamma / 2 * (omega * 1 - gamma / 2 * 0) + 0)
    with (omega * gamma) by field.
  rewrite Hom.
  replace (omega * gamma * (omega * gamma))
    with (omega * omega * gamma ^ 2) by ring.
  rewrite Hom. field.
Qed.

(** For [lam > 0], [gamma > 0], [w0 > gamma/2] and [beta > 0] every
    Matsubara coefficient is a negative real number. *)
Theorem matsubara_exponents_negative
    (lam gamma w0 beta : R) (N_exp : Z) :
  0 < lam -> 0 < gamma -> gamma / 2 < w0 -> 0 < beta ->
  Forall (fun c => Re c < 0 /\ Im c = 0)
         (fst (matsubara_exponents lam gamma w0 beta N_exp)).
Proof.
  intros Hl Hg Hw Hb. unfold matsubara_exponents, np_sqrt. cbn [fst].
  rewrite pole_a_source.
  rewrite map_map. apply Forall_map, Forall_forall. intros n Hn.
  apply py_range_in in Hn.
  rewrite matsubara_denominator_conj, Cdiv_real_mul_conj.
  set (m := Cnorm2 _).
  assert (Hm : 0 < m).
  { apply Cnorm2_pos.
    assert (Ho : 0 < sqrt (w0 ^ 2 - (gamma / 2) ^ 2))
      by (apply sqrt_lt_R0; nra).
    revert Ho. generalize (sqrt (w0 ^ 2 - (gamma / 2) ^ 2)).
    intros omega Ho. csimp. apply Rgt_not_eq. nra. }
  assert (Hn1 : 1 <= IZR n) by (apply IZR_le; lia).
  pose proof PI_RGT_0 as Hpi.
  assert (Hq : 0 < IZR n / m) by (apply Rdiv_lt_0_compat; lra).
  assert (Hc : -4 * gamma * lam ^ 2 / PI * (PI / beta) ^ 2 < 0).
  { assert (H0 : 0 < lam ^ 2) by nra.
    assert (H1 : 0 < 4 * gamma * lam ^ 2 / PI).
    { apply Rdiv_lt_0_compat; [| exact Hpi].
      apply Rmult_lt_0_compat; [lra | exact H0]. }
    assert (H2 : 0 < PI / beta) by (apply Rdiv_lt_0_compat; lra).
    assert (H3 : 0 < (PI / beta) ^ 2) by (apply pow_lt; exact H2).
    replace (-4 * gamma * lam ^ 2 / PI * (PI / beta) ^ 2)
      with (- (4 * gamma * lam ^ 2 / PI * (PI / beta) ^ 2))
      by (unfold Rdiv; ring).
    apply Ropp_lt_gt_0_contravar. apply Rmult_lt_0_compat; assumption. }
  rewrite Cmul_RtoC. cbn [Re Im RtoC]. split; [| reflexivity].
  set (c := -4 * gamma * lam ^ 2 / PI * (PI / beta) ^ 2) in *.
  replace (c * (IZR n / m)) with (- (- c * (IZR n / m))) by ring.
  apply Ropp_lt_gt_0_contravar. apply Rmult_lt_0_compat; lra.
Qed.

Lemma matsubara_exponents_negative_witness :
  Forall (fun c => Re c < 0 /\ Im c = 0)
         (fst (matsubara_exponents 1 1 1 1 3)).
Proof. apply (matsubara_exponents_negative 1 1 1 1 3); lra. Defined.

(** ** The zero-temperature correction *)

Lemma matsubara_zero_kernel_norm (t lam gamma w0 x : R) :
  matsubara_zero_kernel t lam gamma w0 x =
  - (lam ^ 2 * gamma) / PI
  * (x * exp (- x * t)
     / Cnorm2 (mkC (sqrt (w0 ^ 2 - (gamma / 2) ^ 2)) (gamma / 2) ^ 2
               + RtoC (x ^ 2))%C).
Proof.
  unfold matsubara_zero_kernel, np_sqrt. rewrite pole_a_source.
  rewrite matsubara_denominator_conj, Cdiv_real_mul_conj.
  csimp. ring.
Qed.

Lemma matsubara_zero_kernel_value (t lam gamma w0 x : R) :
  0 < gamma -> gamma / 2 <= w0 ->
  matsubara_zero_kernel t lam gamma w0 x =
    - (lam ^ 2 * gamma) / PI
    * (x * exp (- x * t) / ((x ^ 2 + w0 ^ 2) ^ 2 - gamma ^ 2 * x ^ 2)).
Proof.
  intros Hg Hw. rewrite matsubara_zero_kernel_norm.
  rewrite matsubara_denominator_norm by assumption. reflexivity.
Qed.

(** For [gamma > 0] and [w0 > gamma/2] the denominator
    [(x^2 + w0^2)^2 - gamma^2 x^2] is positive, the integrand of the
    zero-temperature correction is
    [-(lam^2 gamma/pi) x exp(-x t) / ((x^2 + w0^2)^2 - gamma^2 x^2)],
    and it is never positive on [x >= 0]. *)
Theorem matsubara_zero_kernel_closed_form (t lam gamma w0 x : R) :
  0 < gamma -> gamma / 2 < w0 ->
  0 < (x ^ 2 + w0 ^ 2) ^ 2 - gamma ^ 2 * x ^ 2
  /\ matsubara_zero_kernel t lam gamma w0 x =
       - (lam ^ 2 * gamma) / PI
       * (x * exp (- x * t) / ((x ^ 2 + w0 ^ 2) ^ 2 - gamma ^ 2 * x ^ 2))
  /\ (0 <= x -> matsubara_zero_kernel t lam gamma w0 x <= 0).
Proof.
  intros Hg Hw.
  assert (Hle : gamma / 2 <= w0) by lra.
  assert (Hm : 0 < (x ^ 2 + w0 ^ 2) ^ 2 - gamma ^ 2 * x ^ 2).
  { rewrite <- (matsubara_denominator_norm gamma w0 x Hg Hle).
    apply Cnorm2_pos.
    assert (Ho : 0 < sqrt (w0 ^ 2 - (gamma / 2) ^ 2))
      by (apply sqrt_lt_R0; nra).
    revert Ho. generalize (sqrt (w0 ^ 2 - (gamma / 2) ^ 2)).
    intros omega Ho. csimp. apply Rgt_not_eq. nra. }
  split; [exact Hm |].
  split; [apply matsubara_zero_kernel_value; assumption |].
  intros Hx. rewrite matsubara_zero_kernel_value by assumption.
  set (m := (x ^ 2 + w0 ^ 2) ^ 2 - gamma ^ 2 * x ^ 2) in *.
  pose proof (exp_pos (- x * t)) as He.
  pose proof PI_RGT_0 as Hpi.
  assert (Hq : 0 <= x * exp (- x * t) / m).
  { unfold Rdiv. apply Rmult_le_pos; [nra |].
    left. apply Rinv_0_lt_compat. exact Hm. }
  assert (Hl : 0 <= lam ^ 2) by apply pow2_ge_0.
  assert (Hp : 0 <= lam ^ 2 * gamma / PI).
  { unfold Rdiv. apply Rmult_le_pos; [apply Rmult_le_pos; lra |].
    left. apply Rinv_0_lt_compat. exact Hpi. }
  replace (- (lam ^ 2 * gamma) / PI) with (- (lam ^ 2 * gamma / PI))
    by (unfold Rdiv; ring).
  set (p := lam ^ 2 * gamma / PI) in *.
  set (q := x * exp (- x * t) / m) in *.
  replace (- p * q) with (- (p * q)) by ring.
  assert (Hpq : 0 <= p * q) by (apply Rmult_le_pos; assumption).
  lra.
Qed.

Lemma matsubara_zero_kernel_closed_form_witness :
  0 < (2 ^ 2 + 1 ^ 2) ^ 2 - 1 ^ 2 * 2 ^ 2
  /\ matsubara_zero_kernel 1 1 1 1 2 =
       - (1 ^ 2 * 1) / PI
       * (2 * exp (- 2 * 1) / ((2 ^ 2 + 1 ^ 2) ^ 2 - 1 ^ 2 * 2 ^ 2))
  /\ (0 <= 2 -> matsubara_zero_kernel 1 1 1 1 2 <= 0).
Proof. apply (matsubara_zero_kernel_closed_form 1 1 1 1 2); lra. Defined.

(** For [gamma > 0] and [w0 > gamma/2], [matsubara_zero_analytical]
    returns one value per time: the integral from 0 to infinity of the
    closed-form integrand at that time. *)
Theorem matsubara_zero_analytical_values
    (quad_inf : (R -> R) -> R -> R) (lam gamma w0 : R) (tlist : list R) :
  0 < gamma -> gamma / 2 < w0 ->
  matsubara_zero_analytical quad_inf lam gamma w0 tlist =
    map (fun t =>
           quad_inf
             (fun x => - (lam ^ 2 * gamma) / PI
                       * (x * exp (- x * t)
                          / ((x ^ 2 + w0 ^ 2) ^ 2 - gamma ^ 2 * x ^ 2)))
             0)
        tlist
  /\ List.length (matsubara_zero_analytical quad_inf lam gamma w0 tlist) =
       List.length tlist.
Proof.
  intros Hg Hw. unfold matsubara_zero_analytical, _matsubara_zero_integrand.
  split; [| apply length_map].
  apply map_ext. intros t. f_equal.
  apply functional_extensionality. intros x.
  apply matsubara_zero_kernel_value; lra.
Qed.

Lemma matsubara_zero_analytical_values_witness :
  List.length (matsubara_zero_analytical (fun f lo => f 1) 1 1 1 [0; 1; 2]) =
    List.length [0; 1; 2].
Proof.
  apply (matsubara_zero_analytical_values (fun f lo => f 1) 1 1 1 [0; 1; 2]);
    lra.
Defined.

(** For [beta <> 0], [gamma >= 0] and [w0 > gamma/2] the Matsubara
    series is the Riemann sum of the zero-temperature integral: the
    [n]-th term [ck*exp(vk*t)] is the zero-temperature
    integrand at the Matsubara frequency [nu_n = 2 pi n/beta] times the
    spacing [2 pi/beta]. *)
Theorem matsubara_terms_sample_zero_kernel
    (t lam gamma w0 beta : R) (N_exp n : Z) :
  (1 <= n <= N_exp - 1)%Z -> beta <> 0 -> 0 <= gamma -> gamma / 2 < w0 ->
  exists (c : C) (v : R),
    nth_error (fst (matsubara_exponents lam gamma w0 beta N_exp))
              (Z.to_nat (n - 1)) = Some c
    /\ nth_error (snd (matsubara_exponents lam gamma w0 beta N_exp))
                 (Z.to_nat (n - 1)) = Some v
    /\ (c * RtoC (exp (v * t)))%C =
         RtoC (matsubara_zero_kernel t lam gamma w0 (matsubara_frequency beta n)
               * (2 * PI / beta)).
Proof.
  intros Hn _ _ _.
  assert (Hk : (Z.to_nat (n - 1) < Z.to_nat (N_exp - 1))%nat) by lia.
  assert (Hv : (1 + Z.of_nat (Z.to_nat (n - 1)))%Z = n) by lia.
  unfold matsubara_exponents, np_sqrt. cbn [fst snd].
  rewrite pole_a_source.
  rewrite !nth_error_map, (py_range_nth 1 N_exp _ Hk), Hv. cbn [option_map].
  eexists. eexists. split; [reflexivity |]. split; [reflexivity |].
  rewrite matsubara_zero_kernel_norm. unfold matsubara_frequency.
  rewrite matsubara_denominator_conj, Cdiv_real_mul_conj.
  set (m := Cnorm2 _).
  replace (-2 * PI * IZR n / beta * t) with (- (2 * PI * IZR n / beta) * t)
    by (unfold Rdiv; ring).
  apply C_eq; csimp; unfold Rdiv; ring.
Qed.

Lemma matsubara_terms_sample_zero_kernel_witness :
  exists (c : C) (v : R),
    nth_error (fst (matsubara_exponents 1 1 1 1 3)) (Z.to_nat (2 - 1)) = Some c
    /\ nth_error (snd (matsubara_exponents 1 1 1 1 3)) (Z.to_nat (2 - 1)) = Some v
    /\ (c * RtoC (exp (v * 1)))%C =
         RtoC (matsubara_zero_kernel 1 1 1 1 (matsubara_frequency 1 2)
               * (2 * PI / 1)).
Proof.
  apply (matsubara_terms_sample_zero_kernel 1 1 1 1 1 3 2);
    [lia | lra | lra | lra].
Defined.

(** ** [nonmatsubara_exponents]: the pair of terms *)

(** For [gamma >= 0], [w0 > gamma/2] and an inverse temperature other
    than 0 (finite or infinite) the second coefficient is the
    conjugate of the first plus [2*coeff], the zero-temperature value;
    hence the sum of the two coefficients is real. *)
Theorem nonmatsubara_coefficients_conjugate
    (lam gamma w0 : R) (beta : invtemp) :
  0 <= gamma -> gamma / 2 < w0 -> beta <> Finite 0 ->
  let coeff := lam ^ 2 / (4 * pole_omega gamma w0) in
  exists c0 c1 : C,
    fst (nonmatsubara_exponents lam gamma w0 beta) = [c0; c1]
    /\ c1 = (Cconj c0 + RtoC (2 * coeff))%C
    /\ Im (c0 + c1)%C = 0.
Proof.
  intros _ _ _ coeff. unfold nonmatsubara_exponents, np_sqrt.
  fold (pole_omega gamma w0). fold coeff. cbn [fst].
  set (a := (RtoC (pole_omega gamma w0) + Ci * RtoC gamma / RtoC 2)%C).
  assert (Hrel : forall c0 c1 : C,
             c1 = (Cconj c0 + RtoC (2 * coeff))%C -> Im (c0 + c1)%C = 0).
  { intros [x y] c1 ->. csimp. ring. }
  destruct beta as [b |]; cbn [map]; eexists; eexists;
    (split; [reflexivity |]);
    match goal with
    | |- ?c1 = ?rhs /\ _ =>
        assert (H : c1 = rhs); [| split; [exact H | apply Hrel; exact H]]
    end.
  - replace (RtoC b * (Cconj a / RtoC 2))%C
      with (Cconj (RtoC b * (a / RtoC 2))%C)
      by (rewrite Cconj_mul, Cconj_div, !Cconj_RtoC; reflexivity).
    rewrite Cconj_coth.
    generalize (coth (RtoC b * (a / RtoC 2))). intros [x y]. cring.
  - cring.
Qed.

Lemma nonmatsubara_coefficients_conjugate_witness :
  exists c0 c1 : C,
    fst (nonmatsubara_exponents 1 1 1 (Finite 1)) = [c0; c1]
    /\ c1 = (Cconj c0 + RtoC (2 * (1 ^ 2 / (4 * pole_omega 1 1))))%C
    /\ Im (c0 + c1)%C = 0.
Proof.
  apply (nonmatsubara_coefficients_conjugate 1 1 1 (Finite 1)); try lra.
  intros H. injection H as H. lra.
Defined.

(** ** [biexp_fit]: errors, rescaling *)

(** Empty data raise [ValueError]; a fit that returns has two
    amplitudes and two rates. *)
Theorem biexp_fit_shape
    (ls : (list R -> list R -> list R -> list R) ->
          list R -> bounds_t -> string -> list R -> list R -> list R)
    (tlist ydata ck_guess vk_guess : list R)
    (bounds : bounds_t) (method loss : string) :
  (ydata = [] ->
   biexp_fit ls tlist ydata ck_guess vk_guess bounds method loss =
     Raise ValueError)
  /\ (forall ck vk,
        biexp_fit ls tlist ydata ck_guess vk_guess bounds method loss =
          Ok (ck, vk) ->
        List.length ck = 2%nat /\ List.length vk = 2%nat /\ ydata <> []).
Proof.
  split.
  - intros ->. reflexivity.
  - intros ck vk. unfold biexp_fit.
    destruct ydata as [| y0 rest]; [discriminate |].
    cbn [np_min bind].
    destruct (ls _ _ _ _ _ _) as [| c1 [| v1 [| c2 [| v2 [| ? ?]]]]];
      try discriminate.
    intros H. injection H as <- <-.
    repeat split; discriminate.
Qed.

Lemma biexp_fit_shape_witness :
  biexp_fit (fun _ x0 _ _ _ _ => x0) [0; 1] []
            default_ck_guess default_vk_guess
            default_bounds default_method default_loss = Raise ValueError.
Proof.
  apply (biexp_fit_shape (fun _ x0 _ _ _ _ => x0) [0; 1] []). reflexivity.
Defined.

(** The [method] argument never reaches the solver: two calls that
    differ in [method] only return the same result. *)
Theorem biexp_fit_ignores_method
    (ls : (list R -> list R -> list R -> list R) ->
          list R -> bounds_t -> string -> list R -> list R -> list R)
    (tlist ydata ck_guess vk_guess : list R)
    (bounds : bounds_t) (method method' loss : string) :
  biexp_fit ls tlist ydata ck_guess vk_guess bounds method loss =
  biexp_fit ls tlist ydata ck_guess vk_guess bounds method' loss.
Proof. reflexivity. Qed.

Lemma sqr_zero (r : R) : r ^ 2 = 0 -> r = 0.
Proof. intros H. nra. Qed.

Lemma biexp_residual_zero (c1 v1 c2 v2 m : R) (tlist ydata : list R) :
  m <> 0 -> List.length tlist = List.length ydata ->
  Forall (fun r => r = 0)
         (biexp_residual [c1; v1; c2; v2] tlist (map (fun y => y / m) ydata)) ->
  Forall2 (fun t y => m * c1 * exp (v1 * t) + m * c2 * exp (v2 * t) = y)
          tlist ydata.
Proof.
  intros Hm. revert ydata.
  induction tlist as [| t tl IH]; intros [| y yl] Hlen Hres;
    simpl in Hlen; try discriminate; [constructor |].
  unfold biexp_residual in Hres. cbn [map combine nth fst snd] in Hres.
  inversion Hres as [| ? ? H0 Hrest]; subst.
  constructor.
  - apply sqr_zero in H0.
    assert (Hy : c1 * exp (v1 * t) + c2 * exp (v2 * t) = y / m) by lra.
    replace (m * c1 * exp (v1 * t) + m * c2 * exp (v2 * t))
      with (m * (c1 * exp (v1 * t) + c2 * exp (v2 * t))) by ring.
    rewrite Hy. field. exact Hm.
  - apply IH; [lia | exact Hrest].
Qed.

(** Rescaling undoes the normalisation: when the solver fits the
    normalised data without residual and the minimum is not zero, the
    returned [(ck, vk)] reproduce [ydata] at every time of [tlist]. *)
Theorem biexp_fit_exact_recovery
    (ls : (list R -> list R -> list R -> list R) ->
          list R -> bounds_t -> string -> list R -> list R -> list R)
    (tlist ydata ck_guess vk_guess : list R)
    (bounds : bounds_t) (method loss : string) (m : R) (ck vk : list R) :
  List.length tlist = List.length ydata ->
  np_min ydata = Ok m -> m <> 0 ->
  biexp_fit ls tlist ydata ck_guess vk_guess bounds method loss = Ok (ck, vk) ->
  Forall (fun r => r = 0)
         (biexp_residual
            (ls biexp_residual biexp_x0 bounds loss tlist
                (map (fun y => y / m) ydata))
            tlist (map (fun y => y / m) ydata)) ->
  Forall2 (fun t y =>
             nth 0 ck 0 * exp (nth 0 vk 0 * t)
             + nth 1 ck 0 * exp (nth 1 vk 0 * t) = y)
          tlist ydata.
Proof.
  intros Hlen Hmin Hm Hfit Hres.
  unfold biexp_fit in Hfit. rewrite Hmin in Hfit. cbn [bind] in Hfit.
  destruct (ls _ _ _ _ _ _) as [| c1 [| v1 [| c2 [| v2 [| ? ?]]]]];
    try discriminate.
  injection Hfit as <- <-. cbn [map nth].
  apply biexp_residual_zero; assumption.
Qed.

(** An exact solver for the data [y(t) = -2 exp(-t)]. *)
Lemma biexp_fit_exact_recovery_witness :
  Forall2 (fun t y =>
             nth 0 [-2 * 1; -2 * 0] 0 * exp (nth 0 [-1; 0] 0 * t)
             + nth 1 [-2 * 1; -2 * 0] 0 * exp (nth 1 [-1; 0] 0 * t) = y)
          [0] [-2].
Proof.
  apply (biexp_fit_exact_recovery (fun _ _ _ _ _ _ => [1; -1; 0; 0])
           [0] [-2] default_ck_guess default_vk_guess
           default_bounds default_method default_loss (-2)).
  - reflexivity.
  - reflexivity.
  - lra.
  - reflexivity.
  - unfold biexp_residual. cbn [map combine nth fst snd].
    constructor; [| constructor].
    rewrite Rmult_0_r, exp_0. field.
Defined.

Lemma Rmin_scale (k x y : R) : 0 < k -> Rmin (k * x) (k * y) = k * Rmin x y.
Proof.
  intros Hk. unfold Rmin.
  destruct (Rle_dec (k * x) (k * y)), (Rle_dec x y); try reflexivity; nra.
Qed.

Lemma fold_left_Rmin_scale (k : R) (l : list R) (x : R) :
  0 < k ->
  fold_left Rmin (map (Rmult k) l) (k * x) = k * fold_left Rmin l x.
Proof.
  intros Hk. revert x. induction l as [| y l IH]; intros x; simpl.
  - reflexivity.
  - rewrite Rmin_scale by exact Hk. apply IH.
Qed.

(** The fit is equivariant under a positive rescaling of the data: the
    normalised data, hence the solver's answer, do not change, and the
    amplitudes scale with the data. *)
Theorem biexp_fit_scale_equivariant
    (ls : (list R -> list R -> list R -> list R) ->
          list R -> bounds_t -> string -> list R -> list R -> list R)
    (tlist ydata ck_guess vk_guess : list R)
    (bounds : bounds_t) (method loss : string) (k m : R) (ck vk : list R) :
  0 < k -> np_min ydata = Ok m -> m <> 0 ->
  biexp_fit ls tlist ydata ck_guess vk_guess bounds method loss = Ok (ck, vk) ->
  biexp_fit ls tlist (map (Rmult k) ydata) ck_guess vk_guess bounds method loss =
    Ok (map (Rmult k) ck, vk).
Proof.
  intros Hk Hmin Hm Hfit.
  assert (Hmin' : np_min (map (Rmult k) ydata) = Ok (k * m)).
  { destruct ydata as [| y0 rest]; [discriminate |].
    simpl in Hmin |- *. injection Hmin as <-.
    rewrite fold_left_Rmin_scale by exact Hk. reflexivity. }
  assert (Hdata : map (fun y => y / (k * m)) (map (Rmult k) ydata) =
                  map (fun y => y / m) ydata).
  { rewrite map_map. apply map_ext. intros y. field. lra. }
  unfold biexp_fit in *. rewrite Hmin in Hfit. rewrite Hmin'.
  cbn [bind] in *. rewrite Hdata.
  destruct (ls _ _ _ _ _ _) as [| c1 [| v1 [| c2 [| v2 [| ? ?]]]]];
    try discriminate.
  injection Hfit as <- <-. cbn [map].
  rewrite !Rmult_assoc. reflexivity.
Qed.

Lemma biexp_fit_scale_equivariant_witness :
  biexp_fit (fun _ x0 _ _ _ _ => x0) [0; 1] (map (Rmult 3) [-2; -1])
            default_ck_guess default_vk_guess
            default_bounds default_method default_loss =
    Ok (map (Rmult 3) [-2 * 0.5; -2 * 0.5], [-1; -1]).
Proof.
  apply (biexp_fit_scale_equivariant (fun _ x0 _ _ _ _ => x0) [0; 1] [-2; -1]
           default_ck_guess default_vk_guess
           default_bounds default_method default_loss 3 (-2)).
  - lra.
  - simpl. f_equal. unfold Rmin. destruct (Rle_dec (-2) (-1)); lra.
  - lra.
  - unfold biexp_fit. simpl np_min.
    replace (Rmin (-2) (-1)) with (-2)
      by (unfold Rmin; destruct (Rle_dec (-2) (-1)); lra).
    reflexivity.
Defined.

(** ** [bath_correlation]: finite temperature and the integrator calls *)

(** At a finite [beta > 0] and a positive frequency the integrand is
    finite: [J(w) coth(beta w/2) cos(w t)]. *)
Lemma integrandR_finite_beta (J : R -> list R -> R) (params : list R) (b w t : R) :
  0 < b -> 0 < w ->
  integrandR J params (Finite b) w t =
    Fin (J w params * (1 / tanh (b * (w / 2))) * cos (w * t)).
Proof.
  intros Hb Hw. unfold integrandR. cbn [xreal_of_invtemp xmul xtanh xdiv].
  assert (Hx : 0 < b * (w / 2)) by nra.
  destruct (tanh_bounds _ Hx) as [Ht _].
  destruct (Req_EM_T (tanh (b * (w / 2))) 0) as [H | _]; [exfalso; lra |].
  reflexivity.
Qed.

(** For a finite [beta > 0], a positive cutoff and an integrator that
    samples inside the interval, [bath_correlation] returns for each
    time [t] the two integrals over [(0, w_cut)] of
    [J(w) coth(beta w/2) cos(w t)] and [-J(w) sin(w t)], divided by
    [pi]. *)
Theorem bath_correlation_finite_beta
    (quad : (R -> xreal) -> R -> R -> xreal)
    (J : R -> list R -> R) (tlist params : list R) (b w_cut : R) :
  interior_rule quad -> 0 < b -> 0 < w_cut ->
  fst (bath_correlation quad (PyFunction J) tlist params (Finite b) w_cut) =
    Ok (map (fun t =>
               corr_entry
                 (quad (fun w => Fin (J w params * (1 / tanh (b * (w / 2)))
                                      * cos (w * t))) 0 w_cut)
                 (quad (fun w => Fin (- J w params * sin (w * t))) 0 w_cut))
            tlist).
Proof.
  intros Hquad Hb Hcut.
  rewrite bath_correlation_callable. cbn [fst]. f_equal.
  apply map_ext. intros t. f_equal.
  apply Hquad; [exact Hcut |].
  intros w [Hw _]. apply integrandR_finite_beta; assumption.
Qed.

Lemma bath_correlation_finite_beta_witness :
  fst (bath_correlation midpoint_quad (PyFunction ohmic_sd) [0; 1] [1] (Finite 1) 2) =
    Ok (map (fun t =>
               corr_entry
                 (midpoint_quad
                    (fun w => Fin (ohmic_sd w [1] * (1 / tanh (1 * (w / 2)))
                                   * cos (w * t))) 0 2)
                 (midpoint_quad
                    (fun w => Fin (- ohmic_sd w [1] * sin (w * t))) 0 2))
            [0; 1]).
Proof.
  apply (bath_correlation_finite_beta midpoint_quad ohmic_sd [0; 1] [1] 1 2).
  - exact midpoint_quad_interior.
  - lra.
  - lra.
Defined.

(** The integrator is called in the order of [tlist], first on the real
    kernel and then on the imaginary one, always over [[0, w_cut]];
    with no time there is no call and the result is the empty array. *)
Theorem bath_correlation_calls
    (quad : (R -> xreal) -> R -> R -> xreal)
    (J : R -> list R -> R) (tlist params : list R)
    (beta : invtemp) (w_cut : R) :
  snd (bath_correlation quad (PyFunction J) tlist params beta w_cut) =
    flat_map (fun t => [mkCall IntegrandR 0 w_cut t;
                        mkCall IntegrandI 0 w_cut t]) tlist
  /\ bath_correlation quad (PyFunction J) [] params beta w_cut = (Ok [], []).
Proof.
  split; [| reflexivity].
  rewrite bath_correlation_callable. reflexivity.
Qed.

(** The Ohmic density vanishes at 0: there the integrand of the real
    part is NaN at a finite temperature. *)
Lemma integrandR_finite_beta_at_0_witness :
  ohmic_sd 0 [1] = 0 /\ integrandR ohmic_sd [1] (Finite 1) 0 2 = NaN.
Proof.
  assert (H : ohmic_sd 0 [1] = 0) by (unfold ohmic_sd; simpl; ring).
  split; [exact H |].
  apply (integrandR_finite_beta_at_0 ohmic_sd [1] 1 2). exact H.
Defined.
